(** * rego: a build-watch-supervise loop for Go programs

    A shallow embedding of the two iterations of [main] that the
    repository holds:

    - [Module Rego]   : the later iteration (recursive directory watches,
      extra watches, foundation-library skip, signal handling);
    - [Module RegoV1] : the earlier iteration in [rego.go].

    The goroutines of [main] communicate over unbuffered channels; each
    goroutine body is embedded as a function from its state and the
    message it receives to its new state and the actions it performs, and
    the environment (file system, notification primitive, build tool,
    process table) is an explicit oracle, [World]. *)

From Stdlib Require Import ZArith Ascii String List Bool Lia.
From stdpp Require Import base decidable option list strings gmap.

Local Open Scope string_scope.
Local Open Scope list_scope.

#[local] Set Warnings "-clear-no-such-hyp".

(** ** Paths and strings: the library functions [main] calls *)

Module Path.

(** [os.IsPathSeparator] on Unix. *)
Definition IsPathSeparator (c : ascii) : bool := Ascii.eqb c "/"%char.

Definition chars (s : string) : list ascii := list_ascii_of_string s.

(** [strings.HasPrefix s prefix]. *)
Definition HasPrefix (s prefix : string) : bool := String.prefix prefix s.

(** The loop of [filepath.Ext]: [i] runs down from the last byte, here
    over the reversed bytes, [suffix] being [path[i+1:]]. *)
Fixpoint ext_scan (rev_path : list ascii) (suffix : string) : string :=
  match rev_path with
  | [] => ""
  | c :: r =>
      if IsPathSeparator c then ""
      else if Ascii.eqb c "."%char then String c suffix
      else ext_scan r (String c suffix)
  end.

Definition Ext (path : string) : string := ext_scan (rev (chars path)) "".

(** [filepath.Base]: strip the trailing separators, keep what follows
    the last separator. *)
Fixpoint strip_seps (rev_path : list ascii) : list ascii :=
  match rev_path with
  | c :: r => if IsPathSeparator c then strip_seps r else rev_path
  | [] => []
  end.

Fixpoint last_element (rev_path : list ascii) (suffix : string) : string :=
  match rev_path with
  | [] => suffix
  | c :: r => if IsPathSeparator c then suffix else last_element r (String c suffix)
  end.

Definition Base (path : string) : string :=
  if String.eqb path "" then "."
  else
    let e := last_element (strip_seps (rev (chars path))) "" in
    if String.eqb e "" then "/" else e.

(** [filepath.Join dir name] for a directory and one of its entries;
    the [Clean] pass of the library is the identity on the paths the
    walk builds and is left out. *)
Definition Join (dir name : string) : string :=
  match rev (chars dir) with
  | c :: _ => if IsPathSeparator c then dir +:+ name else dir +:+ "/" +:+ name
  | [] => name
  end.



End Path.

(** ** The environment *)

(** What [os.Stat] and [filepath.Walk] see below a path.  [Broken] is an
    entry the walk reports with a non-nil error (failed lstat, unreadable
    directory).  The entries of a directory come in the order the walk
    visits them. *)
#[warnings="-register-all"]
Inductive node :=
| File
| Dir (entries : list (string * node))
| Broken.

Definition pid := nat.

(** [build.Package], with the fields [main] reads. *)
Record Package := {
  ImportPath : string;
  PkgDir : string;
  Goroot : bool;
  Imports : list string;
  GoFiles : list string;
  BinDir : string
}.

(** Modelled from the spec: the event kinds of the notification primitive
    (create, write, rename, remove, permission change); the declaration
    of [fsnotify.Op] is not part of the sources. *)
Inductive Op := Create | Write | Remove | Rename | Chmod.

Record Event := { Name : string; EvOp : Op }.

(** The oracle for everything outside the program. *)
Record World := {
  stat : string → option node;        (* os.Stat *)
  add_ok : string → bool;             (* does w.Add succeed on the path *)
  import : string → option Package;   (* build.Import, [None] on error *)
  run_ok : bool;                      (* does `go install` exit with 0 *)
  signal_ok : pid → bool;             (* does proc.Signal deliver *)
  start : option pid                  (* cmd.Start: the new process *)
}.

(** Flags and what startup leaves behind. *)
Record Config := {
  verbose : bool;
  timings : bool;
  race : bool;
  buildTags : string;
  cmdArgs : list string;
  mainPkg : Package;
  extraPaths : gmap string bool
}.

(** What the program does to the outside, in order. *)
Inductive action :=
| Log (what : string) (arg : string)
| Print (s : string)
| WAdd (path : string) (ok : bool)
| WRemove (path : string) (ok : bool)
| SendInstall
| GoInstall (argv : list string) (ok : bool)
| SendRestart (alive : bool)
| Interrupt (p : pid) (ok : bool)
| Kill (p : pid)
| Wait (p : pid)
| Start (argv : list string) (p : option pid)
| OsExit (code : Z).

(** [if *verbose { log... }] *)
Definition vlog (cfg : Config) (what arg : string) : list action :=
  if verbose cfg then [Log what arg] else [].

(** The watcher: [w.Add] subscribes when the primitive accepts the path,
    [w.Remove] fails on a path that is not subscribed.  The primitive
    also drops the subscription of a path that is deleted, before the
    removal is reported: for such a path the set below is the right one,
    the flag of [w.Remove] is that of the set kept here. *)
Definition watcher_Add (W : World) (path : string) (w : gset string) : gset string * bool :=
  if add_ok W path then ({[path]} ∪ w, true) else (w, false).

Definition watcher_Remove (path : string) (w : gset string) : gset string * bool :=
  if decide (path ∈ w) then (w ∖ {[path]}, true) else (w, false).

Module Rego.

Import Path.

Section handler.
Context (cfg : Config).

(** [m[name]] on a [map[string]bool]: false for a missing key. *)
Definition extra (name : string) : bool := default false (extraPaths cfg !! name).

Definition matchFile (name : string) : bool :=
  (String.eqb (Ext name) ".go" && negb (HasPrefix (Base name) ".")) || extra name.

(** The callback of [filepath.Walk] and the walk itself: [name] is
    [info.Name()], the last element of [path]. *)
Fixpoint walk (path name : string) (n : node) : list string :=
  match n with
  | Broken => []
  | File => if matchFile name then [path] else []
  | Dir entries =>
      path :: flat_map (fun e => walk (Join path e.1) e.1 e.2) entries
  end.

(** [for _, path := range paths { w.Add(path) }] *)
Fixpoint add_paths (W : World) (paths : list string) (w : gset string)
  : gset string * list action :=
  match paths with
  | [] => (w, [])
  | path :: rest =>
      let '(w1, ok) := watcher_Add W path w in
      let '(w2, tr) := add_paths W rest w1 in
      (w2, vlog cfg "Watch" path ++ [WAdd path ok]
           ++ (if ok then [] else vlog cfg "error" path) ++ tr)
  end.

(** The goroutine started for one event: the watch set after it, what
    it did, ending in [SendInstall] when it reaches the send. *)
Definition on_event (W : World) (w : gset string) (ev : Event)
  : gset string * list action :=
  let send := vlog cfg "event" (Name ev) ++ [SendInstall] in
  match EvOp ev with
  | Create | Rename | Write =>
      match stat W (Name ev) with
      | None | Some Broken => (w, vlog cfg "error" (Name ev))
      | Some (Dir entries) =>
          let paths := Name ev :: walk (Name ev) (Base (Name ev)) (Dir entries) in
          let '(w', tr) := add_paths W paths w in
          (w', tr ++ send)
      | Some File =>
          if negb (matchFile (Name ev)) then (w, [])
          else
            let '(w', tr) := add_paths W [Name ev] w in
            (w', tr ++ send)
      end
  | Remove =>
      let '(w', ok) := watcher_Remove (Name ev) w in
      (w', [WRemove (Name ev) ok]
           ++ (if ok then [] else vlog cfg "error" (Name ev)) ++ send)
  | Chmod => (w, [])
  end.

End handler.

(** *** Dependency resolution at startup *)

(** How a piece of [main] ends: it falls through with a value, it calls
    [log.Fatal] (exit status 1), it executes [return] in [main] (the
    program ends with status 0), or the bound on the iterations of the
    model is reached. *)
Inductive outcome (A : Type) :=
| Ok (a : A)
| LogFatal
| MainReturns
| Unfinished.
Arguments Ok {A} a.
Arguments LogFatal {A}.
Arguments MainReturns {A}.
Arguments Unfinished {A}.

Record rstate := {
  pkgs : list Package;
  seenPkgs : gset string;
  watched : gset string
}.

(** [for _, imp := range pkg.Imports].  The goroutines of one unit are
    run here in the order they are started; each touches [pkgs] and
    [seenPkgs] under the mutex.  In the program a unit is appended when
    its own goroutine is through with [build.Import], so the order of
    the units of one pass is that of completion; what is proved of this
    loop does not rest on that order. *)
Fixpoint range_imports (W : World) (imps : list string)
    (ps : list Package) (seen : gset string)
  : outcome (list Package * gset string) :=
  match imps with
  | [] => Ok (ps, seen)
  | imp :: rest =>
      if decide (imp ∈ seen) then range_imports W rest ps seen
      else if String.eqb imp "C" || HasPrefix imp "." then MainReturns
      else
        match import W imp with
        | None => LogFatal
        | Some impPkg => range_imports W rest (ps ++ [impPkg]) ({[imp]} ∪ seen)
        end
  end.

(** [for i := 0; i < len(pkgs); i++], at most [fuel] iterations. *)
Fixpoint range_pkgs (W : World) (fuel i : nat) (st : rstate) : outcome rstate :=
  match fuel with
  | 0 => Unfinished
  | S fuel =>
      match pkgs st !! i with
      | None => Ok st
      | Some pkg =>
          if Goroot pkg then range_pkgs W fuel (S i) st
          else
            let '(w, ok) := watcher_Add W (PkgDir pkg) (watched st) in
            if negb ok then LogFatal
            else
              match range_imports W (Imports pkg) (pkgs st) (seenPkgs st) with
              | Ok (ps, seen) =>
                  range_pkgs W fuel (S i) {| pkgs := ps; seenPkgs := seen; watched := w |}
              | LogFatal => LogFatal
              | MainReturns => MainReturns
              | Unfinished => Unfinished
              end
      end
  end.

Definition resolve (W : World) (fuel : nat) (root : Package) : outcome rstate :=
  range_pkgs W fuel 0 {| pkgs := [root]; seenPkgs := ∅; watched := ∅ |}.

(** *** The process supervisor, the build and the trigger queue *)

(** The signals [signal.Notify] registers. *)
Inductive signal := SIGTERM | SIGINT | SIGHUP.

Record State := {
  watchset : gset string;
  needsInstall : nat;
  nrestarts : nat;
  proc : option pid
}.

Inductive status :=
| Running (s : State)
| Exited (code : Z).

Inductive input :=
| FsEvent (ev : Event)           (* a value on w.Events *)
| WatcherError (err : string)    (* a value on w.Errors *)
| TimerExpires                   (* a value on timerChan *)
| OsSignal (sig : signal).       (* a value on c *)

Section loops.
Context (cfg : Config).

(** [if proc != nil { ... }] in the supervisor. *)
Definition stop_proc (W : World) (proc : option pid) : list action :=
  match proc with
  | Some p =>
      let ok := signal_ok W p in
      [Interrupt p ok] ++ (if ok then [] else [Log "error" "signal"; Kill p])
        ++ [Wait p]
  | None => []
  end.

Definition child_argv : list string :=
  Join (BinDir (mainPkg cfg)) (Base (ImportPath (mainPkg cfg))) :: cmdArgs cfg.

(** One turn of [for alive := range restart]: the process handle
    afterwards, or the exit status. *)
Definition supervisor (W : World) (proc : option pid) (alive : bool)
  : (Z + option pid) * list action :=
  let stopped := stop_proc W proc in
  if negb alive then (inl 0%Z, stopped ++ [OsExit 0])
  else
    (inr (start W),
     stopped ++ vlog cfg "exec" (Base (ImportPath (mainPkg cfg)))
       ++ [Start child_argv (start W)]
       ++ (match start W with Some _ => [] | None => [Log "error" "start"] end)).

Definition install_argv : list string :=
  ["go"; "install"; "-tags=" +:+ buildTags cfg]
    ++ (if race cfg then ["-race"] else [])
    ++ [ImportPath (mainPkg cfg)].

(** [installAndRestart]: the new [nrestarts], what it did, and the
    value it sends on [restart], if any. *)
Definition installAndRestart (W : World) (nrestarts : nat)
  : nat * list action * option bool :=
  let pre := [Print ".."] ++ vlog cfg "go install" (ImportPath (mainPkg cfg)) in
  if run_ok W then
    let word := if Nat.eqb nrestarts 0 then "starting" else "restarting" in
    (S nrestarts,
     pre ++ [GoInstall install_argv true; Log "ok" word]
       ++ (if timings cfg then [Log "compilation took" ""] else [])
       ++ [SendRestart true],
     Some true)
  else
    (nrestarts,
     pre ++ [GoInstall install_argv false; Log "!!!!" "compilation failed"],
     None).

Definition is_send (a : action) : bool :=
  match a with SendInstall => true | _ => false end.

(** One message taken by one of the loops of [main], the goroutines it
    sets off run to their next receive. *)
Definition step (W : World) (s : State) (i : input) : status * list action :=
  match i with
  | FsEvent ev =>
      let '(w, tr) := on_event cfg W (watchset s) ev in
      (Running {| watchset := w;
                  needsInstall := if existsb is_send tr then S (needsInstall s)
                                  else needsInstall s;
                  nrestarts := nrestarts s;
                  proc := proc s |}, tr)
  | WatcherError err => (Exited 1, [Log "fatal" err; OsExit 1])
  | TimerExpires =>
      match needsInstall s with
      | 0 => (Running s, [])     (* timerChan is never sent on *)
      | S _ =>
          let '(n, tr, req) := installAndRestart W (nrestarts s) in
          match req with
          | None =>
              (Running {| watchset := watchset s; needsInstall := 0;
                          nrestarts := n; proc := proc s |}, tr)
          | Some alive =>
              let '(r, tr') := supervisor W (proc s) alive in
              (match r with
               | inl code => Exited code
               | inr p => Running {| watchset := watchset s; needsInstall := 0;
                                     nrestarts := n; proc := p |}
               end, tr ++ tr')
          end
      end
  | OsSignal _ =>
      let '(r, tr) := supervisor W (proc s) false in
      (match r with
       | inl code => Exited code
       | inr p => Running {| watchset := watchset s; needsInstall := needsInstall s;
                             nrestarts := nrestarts s; proc := p |}
       end, SendRestart false :: tr)
  end.

End loops.

(** *** Changes in the file system *)



(** *** The trigger queue against the clock *)

(** The quiet period, in milliseconds. *)
Definition quiet : Z := 200.

(** The debounce loop over the arrival times of the values sent on
    [install]: [now] is the time the current iteration starts, the
    timer armed in it fires at [now + quiet].  The result is the times
    at which [installAndRestart] is called and the counter when the
    loop blocks for good.  After the timer case the counter is zero, so
    the next iteration can only receive; both are one equation here.
    [build_ms] is the time a call of [installAndRestart] takes. *)
Fixpoint debounce (build_ms now : Z) (needsInstall : nat) (arrivals : list Z)
  : list Z * nat :=
  match arrivals with
  | [] =>
      match needsInstall with
      | 0 => ([], 0)
      | S _ => ([(now + quiet)%Z], 0)
      end
  | t :: rest =>
      if (0 <? needsInstall)%nat && (now + quiet <=? t)%Z then
        let fired := (now + quiet)%Z in
        let '(builds, n) := debounce build_ms (Z.max (fired + build_ms) t) 1 rest in
        (fired :: builds, n)
      else debounce build_ms (Z.max now t) (S needsInstall) rest
  end.

(** *** The loops of [main] over a sequence of messages *)

(** The messages in the order they are taken, each with the state of the
    outside when it is; nothing is taken after the program has ended. *)
Fixpoint run (cfg : Config) (s : State) (ins : list (World * input))
  : status * list action :=
  match ins with
  | [] => (Running s, [])
  | (W, i) :: rest =>
      match step cfg W s i with
      | (Running s', tr) =>
          let '(st, tr') := run cfg s' rest in (st, tr ++ tr')
      | (Exited code, tr) => (Exited code, tr)
      end
  end.

(** *** The extra watches at startup *)

(** [filepath.Glob] and [filepath.Abs], [None] on error. *)
Record Files := {
  glob : string → option (list string);
  abs : string → option string
}.

(** [strings.Split(s, ",")] *)
Fixpoint Split (s : string) : list string :=
  match s with
  | "" => [""]
  | String c rest =>
      if Ascii.eqb c ","%char then "" :: Split rest
      else
        match Split rest with
        | h :: t => String c h :: t
        | [] => [String c ""]
        end
  end.

(** [for _, path := range matches] *)
Fixpoint range_matches (F : Files) (W : World) (matches : list string)
    (w : gset string) (m : gmap string bool)
  : outcome (gset string * gmap string bool) :=
  match matches with
  | [] => Ok (w, m)
  | path :: rest =>
      match abs F path with
      | None => LogFatal
      | Some path' =>
          let '(w', ok) := watcher_Add W path' w in
          if ok then range_matches F W rest w' (<[path' := true]> m)
          else LogFatal
      end
  end.

(** The loop over the patterns of the [extra-watches] flag, split at the
    commas. *)
Fixpoint range_patterns (F : Files) (W : World) (pats : list string)
    (w : gset string) (m : gmap string bool)
  : outcome (gset string * gmap string bool) :=
  match pats with
  | [] => Ok (w, m)
  | pat :: rest =>
      match glob F pat with
      | None => LogFatal
      | Some matches =>
          match range_matches F W matches w m with
          | Ok (w', m') => range_patterns F W rest w' m'
          | o => o
          end
      end
  end.

(** The watch set and [extraPaths] after the block guarded by a
    non-empty [extra-watches] flag. *)
Definition init_extra (F : Files) (W : World) (extra_flag : string) (w : gset string)
  : outcome (gset string * gmap string bool) :=
  if String.eqb extra_flag "" then Ok (w, ∅)
  else range_patterns F W (Split extra_flag) w ∅.

End Rego.

(** ** The earlier iteration: [rego.go] *)

Module RegoV1.

Import Path.
Import Rego.

(** [for _, file := range pkg.GoFiles { w.Add(filepath.Join(pkg.Dir, file)) }],
    [log.Fatal] on the first failure. *)
Fixpoint add_files (W : World) (dir : string) (files : list string) (w : gset string)
  : option (gset string) :=
  match files with
  | [] => Some w
  | file :: rest =>
      let '(w1, ok) := watcher_Add W (Join dir file) w in
      if ok then add_files W dir rest w1 else None
  end.

(** [for _, imp := range pkg.Imports]: the sentinel is passed over with
    [continue]. *)
Fixpoint range_imports (W : World) (imps : list string)
    (ps : list Package) (seen : gset string)
  : outcome (list Package * gset string) :=
  match imps with
  | [] => Ok (ps, seen)
  | imp :: rest =>
      if decide (imp ∈ seen) then range_imports W rest ps seen
      else if String.eqb imp "C" then range_imports W rest ps seen
      else
        match import W imp with
        | None => LogFatal
        | Some impPkg => range_imports W rest (ps ++ [impPkg]) ({[imp]} ∪ seen)
        end
  end.

Fixpoint range_pkgs (W : World) (fuel i : nat) (st : rstate) : outcome rstate :=
  match fuel with
  | 0 => Unfinished
  | S fuel =>
      match pkgs st !! i with
      | None => Ok st
      | Some pkg =>
          let '(w, ok) := watcher_Add W (PkgDir pkg) (watched st) in
          if negb ok then LogFatal
          else
            match add_files W (PkgDir pkg) (GoFiles pkg) w with
            | None => LogFatal
            | Some w' =>
                match range_imports W (Imports pkg) (pkgs st) (seenPkgs st) with
                | Ok (ps, seen) =>
                    range_pkgs W fuel (S i)
                      {| pkgs := ps; seenPkgs := seen; watched := w' |}
                | LogFatal => LogFatal
                | MainReturns => MainReturns
                | Unfinished => Unfinished
                end
            end
      end
  end.

Definition resolve (W : World) (fuel : nat) (root : Package) : outcome rstate :=
  range_pkgs W fuel 0 {| pkgs := [root]; seenPkgs := ∅; watched := ∅ |}.

(** The body of [case ev, ok := <-w.Events] for a received event. *)
Definition on_event (vb : bool) (W : World) (w : gset string) (ev : Event)
  : gset string * list action :=
  let lg what := if vb then [Log what (Name ev)] else [] in
  if negb (String.eqb (Ext (Name ev)) ".go") then (w, [])
  else if HasPrefix (Base (Name ev)) "." then (w, [])
  else
    match EvOp ev with
    | Create =>
        let '(w', ok) := watcher_Add W (Name ev) w in
        (w', [WAdd (Name ev) ok] ++ (if ok then [] else [Log "error" (Name ev)])
               ++ lg "event" ++ [SendInstall])
    | Remove =>
        let '(w', ok) := watcher_Remove (Name ev) w in
        (w', [WRemove (Name ev) ok] ++ (if ok then [] else [Log "error" (Name ev)])
               ++ lg "event" ++ [SendInstall])
    | Chmod => (w, [])
    | Write | Rename => (w, lg "event" ++ [SendInstall])
    end.

End RegoV1.

(** * Properties *)

(** ** Concrete inputs used by the examples *)

Module Sample.

Import Path Rego.

Definition app : Package :=
  {| ImportPath := "example.com/app"; PkgDir := "/src/app"; Goroot := false;
     Imports := ["C"; "fmt"]; GoFiles := ["main.go"]; BinDir := "/go/bin" |}.

Definition fmt : Package :=
  {| ImportPath := "fmt"; PkgDir := "/usr/lib/go/src/fmt"; Goroot := true;
     Imports := ["io"]; GoFiles := ["print.go"]; BinDir := "/usr/lib/go/bin" |}.

Definition io : Package :=
  {| ImportPath := "io"; PkgDir := "/usr/lib/go/src/io"; Goroot := true;
     Imports := []; GoFiles := ["io.go"]; BinDir := "/usr/lib/go/bin" |}.

(** A program whose only dependency is a foundation-library unit. *)
Definition tool : Package :=
  {| ImportPath := "example.com/tool"; PkgDir := "/src/tool"; Goroot := false;
     Imports := ["fmt"]; GoFiles := ["tool.go"]; BinDir := "/go/bin" |}.

Definition assets : node := Dir [("gen.go", File); ("page.html", File)].

Definition world : World :=
  {| stat := fun path =>
       if String.eqb path "/src/app/assets" then Some assets
       else if String.eqb path "/src/app/.main.go" then Some File
       else if String.eqb path "/src/app/main.go" then Some File
       else None;
     add_ok := fun _ => true;
     import := fun imp =>
       if String.eqb imp "fmt" then Some fmt
       else if String.eqb imp "io" then Some io
       else None;
     run_ok := true;
     signal_ok := fun _ => true;
     start := Some 42 |}.

Definition broken_build : World :=
  {| stat := stat world; add_ok := add_ok world; import := import world;
     run_ok := false; signal_ok := signal_ok world; start := start world |}.

Definition cfg : Config :=
  {| verbose := false; timings := false; race := false; buildTags := "";
     cmdArgs := ["-port"; "8080"]; mainPkg := app;
     extraPaths := {[ "/src/app/assets/page.html" := true ]} |}.

Definition serving : State :=
  {| watchset := {[ "/src/app" ]}; needsInstall := 1; nrestarts := 1; proc := Some 7 |}.

(** Three triggers taken, none built yet. *)
Definition pending : State :=
  {| watchset := {[ "/src/app" ]}; needsInstall := 3; nrestarts := 1; proc := Some 7 |}.

Definition chatty : Config :=
  {| verbose := true; timings := false; race := false; buildTags := "";
     cmdArgs := []; mainPkg := app; extraPaths := ∅ |}.

(** The primitive refuses every subscription. *)
Definition full : World :=
  {| stat := stat world; add_ok := fun _ => false; import := import world;
     run_ok := true; signal_ok := signal_ok world; start := start world |}.

(** Every path is a regular file the primitive accepts. *)
Definition flat : World :=
  {| stat := fun _ => Some File; add_ok := fun _ => true; import := import world;
     run_ok := true; signal_ok := signal_ok world; start := start world |}.

(** The file system as the extra watches see it from [/src/app]. *)
Definition files : Rego.Files :=
  {| Rego.glob := fun pat =>
       if String.eqb pat "assets/*.html" then Some ["assets/page.html"] else Some [];
     Rego.abs := fun path => Some ("/src/app/" +:+ path) |}.










(** A program whose dependencies are all its own. *)
Definition util : Package :=
  {| ImportPath := "example.com/util"; PkgDir := "/src/util"; Goroot := false;
     Imports := []; GoFiles := ["util.go"]; BinDir := "/go/bin" |}.

Definition site : Package :=
  {| ImportPath := "example.com/site"; PkgDir := "/src/site"; Goroot := false;
     Imports := ["example.com/util"]; GoFiles := ["site.go"; "routes.go"];
     BinDir := "/go/bin" |}.

Definition workspace : World :=
  {| stat := stat world; add_ok := fun _ => true;
     import := fun imp =>
       if String.eqb imp "example.com/util" then Some util else None;
     run_ok := true; signal_ok := signal_ok world; start := start world |}.

End Sample.

(** Membership in a trace written with [::] and [++]. *)
Ltac in_trace :=
  repeat (rewrite elem_of_cons || rewrite elem_of_app || rewrite elem_of_nil);
  naive_solver.

(** ** The event handler *)

Section handler_facts.

Import Path Rego.

Context (cfg : Config).

Lemma vlog_no_send what arg : SendInstall ∉ vlog cfg what arg.
Proof.
  unfold vlog. destruct (verbose cfg); [|apply not_elem_of_nil].
  intros [Heq|Hin]%elem_of_cons; [discriminate|]. by apply elem_of_nil in Hin.
Qed.

(** A dot file that is not an extra path does not match, whatever its
    extension. *)
Lemma matchFile_dot name :
  HasPrefix (Base name) "." = true → extra cfg name = false →
  matchFile cfg name = false.
Proof.
  intros Hdot Hextra. unfold matchFile. rewrite Hdot, Hextra.
  by rewrite andb_false_r.
Qed.

Lemma matchFile_ext name :
  Ext name ≠ ".go" → extra cfg name = false → matchFile cfg name = false.
Proof.
  intros Hext Hextra. unfold matchFile. rewrite Hextra.
  apply String.eqb_neq in Hext. by rewrite Hext.
Qed.

(** An existing file that does not match ends the goroutine before it
    touches the watcher or the queue, for every kind of event but a
    removal. *)
Lemma on_event_file_not_matching W w ev :
  EvOp ev ≠ Remove → stat W (Name ev) = Some File →
  matchFile cfg (Name ev) = false →
  on_event cfg W w ev = (w, []).
Proof.
  intros Hop Hstat Hm. unfold on_event. rewrite Hstat, Hm.
  by destruct (EvOp ev).
Qed.

(** X13.  A create, rename, write or permission event whose path is gone by
    the time it is looked at is dropped: the watch set is unchanged and
    no trigger is sent. *)
Lemma on_event_vanished W w ev :
  EvOp ev ≠ Remove → stat W (Name ev) = None →
  (on_event cfg W w ev).1 = w ∧ SendInstall ∉ (on_event cfg W w ev).2.
Proof.
  intros Hop Hstat. unfold on_event. rewrite Hstat.
  destruct (EvOp ev); try done; simpl; (split; [done|]);
    first [apply vlog_no_send | apply not_elem_of_nil].
Qed.

(** A removal is never filtered: the path is unsubscribed and a trigger
    is sent, whatever the name. *)
Lemma on_event_remove_sends W w name :
  SendInstall ∈ (on_event cfg W w {| Name := name; EvOp := Remove |}).2.
Proof.
  unfold on_event. simpl. destruct (watcher_Remove name w) as [w' ok]. simpl.
  in_trace.
Qed.

(** *** What the walk collects *)

(** [inside path name n path' name' n']: the walk of [n] at [path]
    comes across [n'] at [path'], whose last element is [name']. *)
Inductive inside : string → string → node → string → string → node → Prop :=
| inside_root path name n : inside path name n path name n
| inside_entry path name entries e path' name' n' :
    e ∈ entries →
    inside (Join path e.1) e.1 e.2 path' name' n' →
    inside path name (Dir entries) path' name' n'.

Lemma walk_directories path name n path' name' entries' :
  inside path name n path' name' (Dir entries') → path' ∈ walk cfg path name n.
Proof.
  intros H. remember (Dir entries') as d eqn:Hd.
  induction H as [path name n|path name entries e path' name' n' Hin H IH]; subst.
  - simpl. set_solver.
  - simpl. apply elem_of_cons. right.
    apply list_elem_of_In, in_flat_map. exists e. split.
    + by apply list_elem_of_In.
    + apply list_elem_of_In. by apply IH.
Qed.

Lemma walk_matching_files path name n path' name' :
  inside path name n path' name' File → matchFile cfg name' = true →
  path' ∈ walk cfg path name n.
Proof.
  intros H Hm. remember File as f eqn:Hf.
  induction H as [path name n|path name entries e path' name' n' Hin H IH]; subst.
  - simpl. rewrite Hm. set_solver.
  - simpl. apply elem_of_cons. right.
    apply list_elem_of_In, in_flat_map. exists e. split.
    + by apply list_elem_of_In.
    + apply list_elem_of_In. by apply IH.
Qed.

(** Whatever the walk hands to [w.Add] and the primitive accepts is
    subscribed afterwards; nothing is dropped. *)
Lemma add_paths_subscribes W paths w path :
  path ∈ paths → add_ok W path = true → path ∈ (add_paths cfg W paths w).1.
Proof.
  revert w. induction paths as [|p rest IH]; intros w Hin Hok.
  - by apply elem_of_nil in Hin.
  - assert (Hkeep : ∀ ps v q, q ∈ v → q ∈ (add_paths cfg W ps v).1).
    { clear. induction ps as [|p ps IHps]; intros v q Hq; [done|].
      simpl. unfold watcher_Add. destruct (add_ok W p).
      - specialize (IHps ({[p]} ∪ v) q).
        destruct (add_paths cfg W ps ({[p]} ∪ v)) as [w2 tr]. simpl in *.
        apply IHps. set_solver.
      - specialize (IHps v q).
        destruct (add_paths cfg W ps v) as [w2 tr]. simpl in *. by apply IHps. }
    simpl. unfold watcher_Add.
    apply elem_of_cons in Hin as [->|Hin].
    + rewrite Hok. specialize (Hkeep rest ({[p]} ∪ w) p).
      destruct (add_paths cfg W rest ({[p]} ∪ w)) as [w2 tr]. simpl in *.
      apply Hkeep. set_solver.
    + destruct (add_ok W p).
      * specialize (IH ({[p]} ∪ w) Hin Hok).
        by destruct (add_paths cfg W rest ({[p]} ∪ w)) as [w2 tr].
      * specialize (IH w Hin Hok).
        by destruct (add_paths cfg W rest w) as [w2 tr].
Qed.

(** X12.  For an event on a directory, every nested directory and every
    nested file whose own name has the watched extension and no leading
    dot is subscribed, as far as the primitive accepts it. *)
Lemma on_event_directory W w ev entries path' name' n' :
  EvOp ev ≠ Remove → EvOp ev ≠ Chmod →
  stat W (Name ev) = Some (Dir entries) →
  inside (Name ev) (Base (Name ev)) (Dir entries) path' name' n' →
  (match n' with
   | Dir _ => True
   | File => Ext name' = ".go" ∧ HasPrefix (Base name') "." = false
   | Broken => False
   end) →
  add_ok W path' = true →
  path' ∈ (on_event cfg W w ev).1 ∧ SendInstall ∈ (on_event cfg W w ev).2.
Proof.
  intros Hr Hc Hstat Hin Hn Hok.
  assert (Hp : path' ∈ Name ev :: walk cfg (Name ev) (Base (Name ev)) (Dir entries)).
  { apply elem_of_cons. right. destruct n' as [|es|]; [|by eapply walk_directories|done].
    eapply walk_matching_files; [done|]. destruct Hn as [He Hd].
    unfold matchFile. rewrite He, Hd. done. }
  pose proof (add_paths_subscribes W _ w _ Hp Hok) as Hsub.
  unfold on_event. rewrite Hstat.
  destruct (add_paths cfg W (Name ev :: walk cfg (Name ev) (Base (Name ev)) (Dir entries)) w)
    as [w' tr] eqn:E.
  simpl in Hsub.
  destruct (EvOp ev); try done; simpl; (split; [done|]); in_trace.
Qed.

End handler_facts.

(** ** Dependency resolution *)

Section resolver_facts.

Import Path Rego.

Context (W : World).




(** The inner loop only appends. *)
Lemma range_imports_appends imps : ∀ ps seen ps' seen',
  range_imports W imps ps seen = Ok (ps', seen') → ∃ new, ps' = ps ++ new.
Proof.
  induction imps as [|imp rest IH]; intros ps seen ps' seen' H; simpl in H.
  - injection H as <- <-. exists []. by rewrite app_nil_r.
  - destruct (decide (imp ∈ seen)); [by eapply IH|].
    destruct (String.eqb imp "C" || HasPrefix imp "."); [discriminate|].
    destruct (import W imp) as [impPkg|]; [|discriminate].
    apply IH in H as [new ->]. exists (impPkg :: new). by rewrite <- app_assoc.
Qed.







(** The sentinel as the first identifier of the root ends [main]. *)
Lemma resolve_sentinel_first fuel root rest :
  Goroot root = false → add_ok W (PkgDir root) = true →
  Imports root = "C" :: rest →
  resolve W (S fuel) root = MainReturns.
Proof.
  intros Hg Hok Hi. unfold resolve. simpl. rewrite Hg. unfold watcher_Add.
  rewrite Hok. simpl. rewrite Hi. simpl.
  destruct (decide ("C" ∈ (∅ : gset string))) as [Hin|_]; [|done].
  by apply not_elem_of_empty in Hin.
Qed.

(** *** Resolution ends on a finite graph *)

(** [closed U]: the identifiers of every unit resolved from [U] are in
    [U] again. *)
Definition closed (U : gset string) : Prop :=
  ∀ imp p x, imp ∈ U → import W imp = Some p → x ∈ Imports p → x ∈ U.

Definition seenPkgs_within (U seen : gset string) : Prop :=
  ∀ x, x ∈ seen → x ∈ U.

Definition imports_within (U : gset string) (ps : list Package) : Prop :=
  ∀ p x, p ∈ ps → x ∈ Imports p → x ∈ U.

Lemma range_imports_finishes imps : ∀ ps seen,
  range_imports W imps ps seen ≠ Unfinished.
Proof.
  induction imps as [|imp rest IH]; intros ps seen; simpl; [done|].
  destruct (decide (imp ∈ seen)); [apply IH|].
  destruct (String.eqb imp "C" || HasPrefix imp "."); [done|].
  destruct (import W imp); [apply IH|done].
Qed.

(** Every unit appended stands for one identifier newly seen. *)
Lemma range_imports_count U imps : ∀ ps seen ps' seen',
  closed U → (∀ x, x ∈ imps → x ∈ U) → seenPkgs_within U seen →
  imports_within U ps →
  range_imports W imps ps seen = Ok (ps', seen') →
  seenPkgs_within U seen'
  ∧ (length ps' + size seen = length ps + size seen')%nat
  ∧ imports_within U ps'.
Proof.
  unfold seenPkgs_within.
  induction imps as [|imp rest IH]; intros ps seen ps' seen' Hc Himps Hseen Hps H;
    simpl in H.
  - by injection H as <- <-.
  - assert (Hrest : ∀ x, x ∈ rest → x ∈ U).
    { intros x Hx. apply Himps, elem_of_cons. by right. }
    destruct (decide (imp ∈ seen)) as [|Hnew]; [by eapply IH|].
    destruct (String.eqb imp "C" || HasPrefix imp "."); [discriminate|].
    destruct (import W imp) as [impPkg|] eqn:Himp; [|discriminate].
    assert (HimpU : imp ∈ U) by (apply Himps, elem_of_cons; by left).
    apply IH in H as (Hs & Hn & Hi); try done.
    + split; [done|]. split; [|done].
      rewrite size_union, size_singleton in Hn
        by (apply disjoint_singleton_l; exact Hnew).
      rewrite length_app in Hn. simpl in Hn. lia.
    + intros x [->%elem_of_singleton|Hx]%elem_of_union; [done|by apply Hseen].
    + intros p x [Hp|Hp]%elem_of_app Hx; [by eapply Hps|].
      apply list_elem_of_singleton in Hp as ->. by eapply Hc.
Qed.

Lemma range_pkgs_finishes U fuel : ∀ (i : nat) (st : rstate),
  closed U → seenPkgs_within U (seenPkgs st) → imports_within U (pkgs st) →
  (i ≤ length (pkgs st))%nat →
  (size U + length (pkgs st) < fuel + size (seenPkgs st) + i)%nat →
  range_pkgs W fuel i st ≠ Unfinished.
Proof.
  induction fuel as [|fuel IH]; intros i st Hc Hseen Hps Hi Hm.
  - assert (size (seenPkgs st) ≤ size U)%nat; [|lia].
    apply subseteq_size. intros x. apply Hseen.
  - simpl. destruct (pkgs st !! i) as [pkg|] eqn:Hpkg; [|done].
    pose proof (lookup_lt_Some _ _ _ Hpkg) as Hlt.
    destruct (Goroot pkg); [apply IH; try done; lia|].
    unfold watcher_Add. destruct (add_ok W (PkgDir pkg)); [|done]. simpl.
    destruct (range_imports W (Imports pkg) (pkgs st) (seenPkgs st))
      as [[ps seen]| | |] eqn:Himp; try done.
    + pose proof (range_imports_appends _ _ _ _ _ Himp) as [new Hnew].
      apply (range_imports_count U) in Himp as (Hs & Hn & Hin); try done.
      * apply IH; try done; simpl.
        -- subst ps. rewrite length_app. lia.
        -- lia.
      * intros x Hx. eapply Hps; [|exact Hx].
        apply list_elem_of_lookup. by exists i.
    + by apply range_imports_finishes in Himp.
Qed.

(** X1.  When the identifiers that can be reached from the root lie in a
    finite set [U], [size U + 2] iterations are enough: resolution ends
    with the list of units, with [log.Fatal], or with the [return]. *)
Lemma resolve_finishes U fuel root :
  closed U → (∀ x, x ∈ Imports root → x ∈ U) → (size U + 2 ≤ fuel)%nat →
  resolve W fuel root ≠ Unfinished.
Proof.
  intros Hc Hroot Hfuel. unfold resolve. apply (range_pkgs_finishes U); simpl.
  - done.
  - intros x Hx. by apply not_elem_of_empty in Hx.
  - intros p x Hp Hx. apply list_elem_of_singleton in Hp as ->. by apply Hroot.
  - lia.
  - lia.
Qed.

End resolver_facts.

(** ** The build, the supervisor and the loops *)

Section loop_facts.

Import Path Rego.

Context (cfg : Config) (W : World).

Definition is_start (a : action) : bool :=
  match a with Start _ _ => true | _ => false end.

Definition is_build (a : action) : bool :=
  match a with GoInstall _ _ => true | _ => false end.

(** The actions that reach the supervisor or the supervised process. *)
Definition touches_process (a : action) : bool :=
  match a with
  | SendRestart _ | Interrupt _ _ | Kill _ | Wait _ | Start _ _ | OsExit _ => true
  | _ => false
  end.

Lemma vlog_Forall (P : action → Prop) what arg :
  (∀ x y, P (Log x y)) → Forall P (vlog cfg what arg).
Proof. intros HP. unfold vlog. destruct (verbose cfg); repeat constructor. apply HP. Qed.

(** [installAndRestart] runs the build tool once, whatever the outcome. *)
Lemma installAndRestart_builds_once n :
  length (List.filter is_build (installAndRestart cfg W n).1.2) = 1.
Proof.
  unfold installAndRestart, vlog.
  destruct (run_ok W), (verbose cfg), (timings cfg); reflexivity.
Qed.

(** The supervisor never runs the build tool. *)
Lemma supervisor_no_build p alive :
  List.filter is_build (supervisor cfg W p alive).2 = [].
Proof.
  unfold supervisor, stop_proc, vlog.
  destruct p as [p|], alive; simpl;
    try destruct (signal_ok W p); destruct (verbose cfg); simpl;
    try destruct (start W); reflexivity.
Qed.

(** A failed build sends nothing to the supervisor. *)
Lemma installAndRestart_failure n :
  run_ok W = false →
  (installAndRestart cfg W n).1.1 = n ∧
  (installAndRestart cfg W n).2 = None ∧
  Forall (λ a, touches_process a = false) (installAndRestart cfg W n).1.2.
Proof.
  intros Hrun. unfold installAndRestart. rewrite Hrun. simpl.
  repeat split. constructor; [done|]. apply Forall_app. split.
  - by apply vlog_Forall.
  - by repeat constructor.
Qed.

(** No event on [w.Events] ends the program. *)
Lemma step_event_runs s ev :
  ∃ s' tr, step cfg W s (FsEvent ev) = (Running s', tr).
Proof.
  unfold step. destruct (on_event cfg W (watchset s) ev) as [w tr]. eauto.
Qed.

(** Nor does the expiry of the timer, whether the build and the start
    of the program succeed or fail. *)
Lemma step_timer_runs s :
  ∃ s' tr, step cfg W s TimerExpires = (Running s', tr).
Proof.
  unfold step. destruct (needsInstall s); [eauto|].
  unfold installAndRestart. destruct (run_ok W); simpl; eauto.
Qed.

(** Under verbose output a failed [w.Add] leaves a line in the log. *)
Lemma add_paths_logs paths : ∀ w path,
  verbose cfg = true →
  WAdd path false ∈ (add_paths cfg W paths w).2 →
  Log "error" path ∈ (add_paths cfg W paths w).2.
Proof.
  induction paths as [|p rest IH]; intros w path Hv Hin; simpl in *.
  - by apply elem_of_nil in Hin.
  - unfold watcher_Add, vlog in Hin |- *. rewrite Hv in Hin |- *.
    destruct (add_ok W p); simpl in *.
    + specialize (IH ({[p]} ∪ w) path Hv).
      destruct (add_paths cfg W rest ({[p]} ∪ w)) as [w2 tr]. simpl in *.
      revert Hin. rewrite !elem_of_cons. intros [?|[?|Hin]]; try discriminate.
      right. right. by apply IH.
    + specialize (IH w path Hv).
      destruct (add_paths cfg W rest w) as [w2 tr]. simpl in *.
      revert Hin. rewrite !elem_of_cons. intros [?|[Heq|[?|Hin]]]; try discriminate.
      * injection Heq as ->. right. right. by left.
      * right. right. right. by apply IH.
Qed.

Lemma add_paths_then paths w (send : list action) :
  (let '(w', tr) := add_paths cfg W paths w in (w', tr ++ send)).2
  = (add_paths cfg W paths w).2 ++ send.
Proof. by destruct (add_paths cfg W paths w). Qed.

Lemma add_paths_no_remove paths : ∀ w path ok,
  WRemove path ok ∉ (add_paths cfg W paths w).2.
Proof.
  induction paths as [|p rest IH]; intros w path ok H; simpl in H.
  - by apply elem_of_nil in H.
  - destruct (watcher_Add W p w) as [w1 ok1].
    specialize (IH w1 path ok). destruct (add_paths cfg W rest w1) as [w2 tr].
    simpl in *. unfold vlog in H.
    destruct (verbose cfg), ok1; simpl in H;
      repeat (apply elem_of_cons in H as [H|H]; [discriminate|]); by apply IH.
Qed.

Lemma on_event_logs w ev path :
  verbose cfg = true →
  WAdd path false ∈ (on_event cfg W w ev).2 ∨ WRemove path false ∈ (on_event cfg W w ev).2 →
  Log "error" path ∈ (on_event cfg W w ev).2.
Proof.
  intros Hv. unfold on_event.
  assert (Hadd : ∀ paths,
    WAdd path false ∈ (add_paths cfg W paths w).2 ++ vlog cfg "event" (Name ev) ++ [SendInstall]
    ∨ WRemove path false ∈ (add_paths cfg W paths w).2 ++ vlog cfg "event" (Name ev) ++ [SendInstall]
    → Log "error" path ∈ (add_paths cfg W paths w).2 ++ vlog cfg "event" (Name ev) ++ [SendInstall]).
  { intros paths H. apply elem_of_app. left. apply add_paths_logs; [done|].
    unfold vlog in H. rewrite Hv in H.
    destruct H as [H|H]; apply elem_of_app in H as [H|H]; try done.
    - repeat (apply elem_of_cons in H as [H|H]; [discriminate|]). by apply elem_of_nil in H.
    - by apply add_paths_no_remove in H.
    - repeat (apply elem_of_cons in H as [H|H]; [discriminate|]). by apply elem_of_nil in H. }
  assert (Hnil : WAdd path false ∈ @nil action ∨ WRemove path false ∈ @nil action →
                 Log "error" path ∈ @nil action).
  { intros [H|H]; by apply elem_of_nil in H. }
  assert (Herr : WAdd path false ∈ vlog cfg "error" (Name ev)
                 ∨ WRemove path false ∈ vlog cfg "error" (Name ev) →
                 Log "error" path ∈ vlog cfg "error" (Name ev)).
  { unfold vlog. rewrite Hv.
    intros [H|H]; apply elem_of_cons in H as [H|H]; try discriminate;
      by apply elem_of_nil in H. }
  destruct (EvOp ev); try exact Hnil;
    try (destruct (stat W (Name ev)) as [[|entries|]|]; try exact Herr;
         [destruct (matchFile cfg (Name ev)); cbn [negb]; [|exact Hnil]|];
         rewrite add_paths_then; apply Hadd).
  unfold watcher_Remove. destruct (decide (Name ev ∈ w)); cbn [snd];
    unfold vlog; rewrite Hv; cbn [app].
  - intros [H|H]; repeat (apply elem_of_cons in H as [H|H]; [discriminate|]);
      by apply elem_of_nil in H.
  - intros [H|H]; repeat (apply elem_of_cons in H as [H|H]; try discriminate);
      try (by apply elem_of_nil in H).
    injection H as ->. apply elem_of_cons. right. apply elem_of_cons. by left.
Qed.

End loop_facts.

(** ** The trigger queue against the clock *)

Section debounce_facts.

Import Rego.

(** [burst t ts]: the triggers at [ts] follow a trigger at [t], each
    less than a quiet period after the one before. *)
Fixpoint burst (t : Z) (ts : list Z) : Prop :=
  match ts with
  | [] => True
  | t' :: rest => (t ≤ t' < t + quiet)%Z ∧ burst t' rest
  end.

(** With the counter positive and the last trigger taken at [now], a
    burst is swallowed whole and the timer of the last one fires. *)
Lemma debounce_burst build_ms ts : ∀ now n,
  burst now ts →
  debounce build_ms now (S n) ts = ([(default now (last ts) + quiet)%Z], 0).
Proof.
  induction ts as [|t rest IH]; intros now n Hb; [done|].
  destruct Hb as [[Hle Hlt] Hb]. simpl.
  replace (now + quiet <=? t)%Z with false by (symmetry; apply Z.leb_gt; lia).
  rewrite Z.max_r by lia. rewrite (IH t (S n) Hb).
  rewrite last_cons. by destruct (last rest).
Qed.

End debounce_facts.

(** * The claims *)

Section claims.

Import Path Rego.

(** C1.  A burst of K ≥ 1 triggers, each taken less than a quiet period
    (200 ms) after the one before, leads to exactly one call of the
    build, one quiet period after the last trigger, and leaves the
    counter at zero; the expiry of the timer with K triggers counted runs
    the build tool exactly once and resets the counter. *)
Theorem debounce_burst_builds_once cfg W s build_ms now t0 ts :
  (now ≤ t0)%Z → burst t0 ts → needsInstall s = S (length ts) →
  debounce build_ms now 0 (t0 :: ts) = ([(default t0 (last ts) + quiet)%Z], 0)
  ∧ length (List.filter is_build (step cfg W s TimerExpires).2) = 1
  ∧ ∃ s', (step cfg W s TimerExpires).1 = Running s' ∧ needsInstall s' = 0.
Proof.
  intros Hnow Hb Hn. split; [|split].
  - simpl. rewrite Z.max_r by lia. by apply debounce_burst.
  - unfold step. rewrite Hn.
    pose proof (installAndRestart_builds_once cfg W (nrestarts s)) as Hone.
    destruct (installAndRestart cfg W (nrestarts s)) as [[n tr] [alive|]]; [|done].
    pose proof (supervisor_no_build cfg W (proc s) alive) as Hnone.
    destruct (supervisor cfg W (proc s) alive) as [r tr']. simpl in *.
    by rewrite List.filter_app, Hnone, app_nil_r.
  - unfold step. rewrite Hn. unfold installAndRestart.
    destruct (run_ok W); simpl; eauto.
Qed.

Lemma debounce_burst_builds_once_witness :
  debounce 1500 0 0 [0; 10; 150]%Z = ([350%Z], 0)
  ∧ length (List.filter is_build
              (step Sample.cfg Sample.world Sample.pending TimerExpires).2) = 1
  ∧ ∃ s', (step Sample.cfg Sample.world Sample.pending TimerExpires).1 = Running s'
          ∧ needsInstall s' = 0.
Proof.
  apply (debounce_burst_builds_once Sample.cfg Sample.world Sample.pending
           1500 0 0 [10; 150]%Z).
  - lia.
  - simpl. unfold quiet. lia.
  - reflexivity.
Defined.


Lemma resolve_tool :
  resolve Sample.world 3 Sample.tool
  = Ok {| pkgs := [Sample.tool; Sample.fmt];
          seenPkgs := {[ "fmt" ]};
          watched := {[ "/src/tool" ]} |}.
Proof. vm_compute. reflexivity. Qed.






(** C3.  The program [app] names the sentinel ["C"] and then [fmt]: the
    later iteration leaves [main] at the sentinel, so [fmt] is never
    resolved and nothing is watched; the earlier iteration passes over
    the sentinel and resolves the rest. *)
Theorem sentinel_import_returns_from_main :
  Imports Sample.app = ["C"; "fmt"]
  ∧ Rego.resolve Sample.world 8 Sample.app = MainReturns
  ∧ ∃ st, RegoV1.resolve Sample.world 8 Sample.app = Ok st
          ∧ pkgs st = [Sample.app; Sample.fmt; Sample.io].
Proof.
  split; [done|]. split.
  - by apply (resolve_sentinel_first _ _ _ ["fmt"]).
  - eexists. split; [vm_compute; reflexivity|done].
Qed.

(** C4.  When the timer expires and the build succeeds while a process
    [p] is supervised, the trace holds an interrupt of [p], later the
    wait for [p], later the start of the new instance, and no other
    start; the handle of the new instance is the supervised process
    afterwards. *)
Theorem successful_build_restarts_in_order cfg W s p n :
  proc s = Some p → needsInstall s = S n → run_ok W = true →
  ∃ s' t1 t2 t3 t4,
    step cfg W s TimerExpires
    = (Running s',
       t1 ++ [Interrupt p (signal_ok W p)] ++ t2 ++ [Wait p] ++ t3
          ++ [Start (child_argv cfg) (start W)] ++ t4)
    ∧ Forall (λ a, is_start a = false) (t1 ++ t2 ++ t3 ++ t4)
    ∧ (signal_ok W p = false → Kill p ∈ t2)
    ∧ proc s' = start W.
Proof.
  intros Hp Hn Hrun. unfold step. rewrite Hn. unfold installAndRestart.
  rewrite Hrun. unfold supervisor. rewrite Hp. cbn [negb stop_proc].
  eexists _,
    ([Print ".."] ++ vlog cfg "go install" (ImportPath (mainPkg cfg))
       ++ [GoInstall (install_argv cfg) true;
           Log "ok" (if Nat.eqb (nrestarts s) 0 then "starting" else "restarting")]
       ++ (if timings cfg then [Log "compilation took" ""] else [])
       ++ [SendRestart true]),
    (if signal_ok W p then [] else [Log "error" "signal"; Kill p]),
    (vlog cfg "exec" (Base (ImportPath (mainPkg cfg)))),
    (match start W with Some _ => [] | None => [Log "error" "start"] end).
  split; [|split; [|split]].
  - f_equal. by rewrite <- !app_assoc.
  - unfold vlog.
    destruct (verbose cfg), (timings cfg), (signal_ok W p), (start W);
      simpl; repeat constructor.
  - intros ->. apply elem_of_cons. right. apply elem_of_cons. by left.
  - done.
Qed.

Lemma successful_build_restarts_in_order_witness :
  ∃ s' t1 t2 t3 t4,
    step Sample.cfg Sample.world Sample.serving TimerExpires
    = (Running s',
       t1 ++ [Interrupt 7 (signal_ok Sample.world 7)] ++ t2 ++ [Wait 7] ++ t3
          ++ [Start (child_argv Sample.cfg) (start Sample.world)] ++ t4)
    ∧ Forall (λ a, is_start a = false) (t1 ++ t2 ++ t3 ++ t4)
    ∧ (signal_ok Sample.world 7 = false → Kill 7 ∈ t2)
    ∧ proc s' = start Sample.world.
Proof.
  apply (successful_build_restarts_in_order Sample.cfg Sample.world Sample.serving 7 0);
    reflexivity.
Defined.

(** C5.  When the timer expires and the build fails, nothing is sent to
    the supervisor and no action reaches the supervised process: the
    process handle, the watch set and the restart count are as before,
    the counter is zero and the loop goes on. *)
Theorem failed_build_leaves_process cfg W s n :
  needsInstall s = S n → run_ok W = false →
  ∃ tr,
    step cfg W s TimerExpires
    = (Running {| watchset := watchset s; needsInstall := 0;
                  nrestarts := nrestarts s; proc := proc s |}, tr)
    ∧ Forall (λ a, touches_process a = false) tr.
Proof.
  intros Hn Hrun. unfold step. rewrite Hn.
  destruct (installAndRestart_failure cfg W (nrestarts s) Hrun) as (Hk & Hreq & Hquiet).
  destruct (installAndRestart cfg W (nrestarts s)) as [[k tr] req].
  simpl in *. subst. eauto.
Qed.

Lemma failed_build_leaves_process_witness :
  ∃ tr,
    step Sample.cfg Sample.broken_build Sample.serving TimerExpires
    = (Running {| watchset := watchset Sample.serving; needsInstall := 0;
                  nrestarts := 1; proc := Some 7 |}, tr)
    ∧ Forall (λ a, touches_process a = false) tr.
Proof.
  apply (failed_build_leaves_process Sample.cfg Sample.broken_build Sample.serving 0);
    reflexivity.
Defined.

(** C6.  A removal of [notes.txt], which has neither the watched
    extension nor an entry among the extra paths, in the watched
    directory of [app]: the later iteration calls [w.Remove] and sends
    a trigger, which the queue counts; the earlier iteration drops the
    event. *)
Theorem removal_of_unwatched_file_triggers :
  let ev := {| Name := "/src/app/notes.txt"; EvOp := Remove |} in
  Ext (Name ev) = ".txt"
  ∧ matchFile Sample.cfg (Name ev) = false
  ∧ (on_event Sample.cfg Sample.world {[ "/src/app" ]} ev).2
    = [WRemove "/src/app/notes.txt" false; SendInstall]
  ∧ (∃ s', (step Sample.cfg Sample.world Sample.serving (FsEvent ev)).1 = Running s'
           ∧ needsInstall s' = S (needsInstall Sample.serving))
  ∧ RegoV1.on_event false Sample.world {[ "/src/app" ]} ev = ({[ "/src/app" ]}, []).
Proof.
  cbv zeta. repeat split; try (vm_compute; reflexivity).
  eexists. split; vm_compute; reflexivity.
Qed.

(** C7.  A create event for the directory [assets], which holds
    [gen.go] and the extra path [page.html]: the walk hands the
    directory and [gen.go] to [w.Add] but not [page.html], because the
    callback looks the bare entry name up among the extra paths, which
    are absolute. *)
Theorem walk_misses_extra_path :
  let ev := {| Name := "/src/app/assets"; EvOp := Create |} in
  let r := on_event Sample.cfg Sample.world {[ "/src/app" ]} ev in
  stat Sample.world (Name ev) = Some Sample.assets
  ∧ inside (Name ev) "assets" Sample.assets "/src/app/assets/page.html" "page.html" File
  ∧ matchFile Sample.cfg "/src/app/assets/page.html" = true
  ∧ matchFile Sample.cfg "page.html" = false
  ∧ r.2 = [WAdd "/src/app/assets" true; WAdd "/src/app/assets" true;
           WAdd "/src/app/assets/gen.go" true; SendInstall]
  ∧ "/src/app/assets/page.html" ∉ r.1.
Proof.
  cbv zeta. split; [done|]. split.
  { eapply (inside_entry _ _ _ ("page.html", File)).
    - apply elem_of_cons. right. apply elem_of_cons. by left.
    - apply inside_root. }
  repeat split; try (vm_compute; reflexivity).
  apply (bool_decide_unpack _). vm_compute. exact I.
Qed.

(** C8 as stated fails on two counts: a value on the error stream of
    the notification primitive ends the program with status 1, and
    with verbose output off a failed [w.Remove] leaves nothing in the
    log. *)
Lemma watcher_error_is_fatal :
  step Sample.cfg Sample.world Sample.serving (WatcherError "queue overflow")
  = (Exited 1, [Log "fatal" "queue overflow"; OsExit 1])
  ∧ (step Sample.cfg Sample.world Sample.serving
       (FsEvent {| Name := "/src/app/old.go"; EvOp := Remove |})).2
    = [WRemove "/src/app/old.go" false; SendInstall].
Proof. split; vm_compute; reflexivity. Qed.

(** C8, amended.  After startup, no event on the event stream and no
    expiry of the timer ends the program: failures of [w.Add] and
    [w.Remove] are absorbed, and logged when verbose output is on; a
    failed build is absorbed and always reported.  A value on the error
    stream of the notification primitive is logged and ends the program
    with status 1. *)
Theorem steady_state_failures cfg W s :
  (∀ ev, ∃ s' tr,
      step cfg W s (FsEvent ev) = (Running s', tr)
      ∧ (verbose cfg = true → ∀ path,
           WAdd path false ∈ tr ∨ WRemove path false ∈ tr → Log "error" path ∈ tr))
  ∧ (∃ s' tr,
      step cfg W s TimerExpires = (Running s', tr)
      ∧ (needsInstall s ≠ 0 → run_ok W = false →
         Log "!!!!" "compilation failed" ∈ tr))
  ∧ (∀ err, step cfg W s (WatcherError err) = (Exited 1, [Log "fatal" err; OsExit 1])).
Proof.
  split; [|split].
  - intros ev. pose proof (on_event_logs cfg W (watchset s) ev) as Hlog.
    unfold step. destruct (on_event cfg W (watchset s) ev) as [w tr].
    eexists _, _. split; [done|]. intros Hv path. by apply Hlog.
  - unfold step. destruct (needsInstall s) as [|n] eqn:Hn.
    { eexists _, _. split; [done|]. by intros []. }
    unfold installAndRestart. destruct (run_ok W); simpl.
    + eexists _, _. split; [done|]. by intros _ ?.
    + eexists _, _. split; [done|]. intros _ _.
      apply elem_of_cons. right. apply elem_of_app. right.
      apply elem_of_cons. right. apply elem_of_cons. by left.
  - done.
Qed.

Lemma steady_state_failures_witness :
  let ev := {| Name := "/src/app/main.go"; EvOp := Write |} in
  Log "error" "/src/app/main.go"
    ∈ (step Sample.chatty Sample.full Sample.serving (FsEvent ev)).2
  ∧ Log "!!!!" "compilation failed"
    ∈ (step Sample.cfg Sample.broken_build Sample.serving TimerExpires).2.
Proof.
  cbv zeta. split.
  - destruct (steady_state_failures Sample.chatty Sample.full Sample.serving)
      as [Hev _].
    destruct (Hev {| Name := "/src/app/main.go"; EvOp := Write |})
      as (s' & tr & E & Hlog).
    rewrite E. apply (Hlog eq_refl). left.
    vm_compute in E. injection E as _ <-.
    apply elem_of_cons. right. apply elem_of_cons. by left.
  - destruct (steady_state_failures Sample.cfg Sample.broken_build Sample.serving)
      as (_ & (s' & tr & -> & Hlog) & _).
    apply Hlog; [discriminate|reflexivity].
Defined.

(** C9.  A termination signal (interrupt, terminate or hang-up) makes
    the supervisor stop the child, if there is one, with an interrupt,
    a kill when the interrupt cannot be delivered, and a wait, and only
    then end the program with status 0. *)
Theorem termination_signal_stops_child_then_exits cfg W s sig :
  step cfg W s (OsSignal sig)
  = (Exited 0,
     SendRestart false ::
     match proc s with
     | Some p =>
         [Interrupt p (signal_ok W p)]
           ++ (if signal_ok W p then [] else [Log "error" "signal"; Kill p])
           ++ [Wait p]
     | None => []
     end ++ [OsExit 0]).
Proof. unfold step, supervisor, stop_proc. simpl. by destruct (proc s). Qed.

(** C10.  A create, rename or write event on a file whose base name
    begins with a dot and whose path is not an extra path is dropped:
    the watch set is unchanged and nothing is done, no trigger is sent
    and the counter of the queue stays as it was, whatever the
    extension.  The earlier iteration drops it as well. *)
Theorem dot_file_event_ignored cfg W s vb ev :
  EvOp ev = Create ∨ EvOp ev = Rename ∨ EvOp ev = Write →
  stat W (Name ev) = Some File →
  HasPrefix (Base (Name ev)) "." = true →
  extra cfg (Name ev) = false →
  on_event cfg W (watchset s) ev = (watchset s, [])
  ∧ step cfg W s (FsEvent ev) = (Running s, [])
  ∧ RegoV1.on_event vb W (watchset s) ev = (watchset s, []).
Proof.
  intros Hop Hstat Hdot Hextra.
  assert (Hev : on_event cfg W (watchset s) ev = (watchset s, [])).
  { apply on_event_file_not_matching; [|done|by apply matchFile_dot].
    destruct Hop as [ -> | [ -> | -> ] ]; discriminate. }
  split; [done|]. split.
  - unfold step. rewrite Hev. simpl. by destruct s.
  - unfold RegoV1.on_event. rewrite Hdot. by destruct (negb _).
Qed.

Lemma dot_file_event_ignored_witness :
  let ev := {| Name := "/src/app/.main.go"; EvOp := Create |} in
  Ext (Name ev) = ".go"
  ∧ on_event Sample.cfg Sample.world (watchset Sample.serving) ev
    = (watchset Sample.serving, [])
  ∧ step Sample.cfg Sample.world Sample.serving (FsEvent ev)
    = (Running Sample.serving, [])
  ∧ RegoV1.on_event false Sample.world (watchset Sample.serving) ev
    = (watchset Sample.serving, []).
Proof.
  cbv zeta. split; [reflexivity|].
  apply (dot_file_event_ignored Sample.cfg Sample.world Sample.serving false
           {| Name := "/src/app/.main.go"; EvOp := Create |}).
  - by left.
  - reflexivity.
  - reflexivity.
  - reflexivity.
Defined.

End claims.


(** * Further properties of the resolver *)

Section resolver_graph.

Import Path Rego.

Context (W : World).

(** An identifier the later iteration resolves: not the sentinel, not a
    relative path. *)
Definition plain_import (imp : string) : Prop :=
  imp ≠ "C" ∧ HasPrefix imp "." = false.

(** What one pass over the identifiers of a unit adds: the new
    identifiers in the order met, each once, each resolved, with their
    units appended in the same order; afterwards every identifier of the
    unit is seen. *)
Lemma range_imports_spec imps : ∀ ps seen ps' seen',
  range_imports W imps ps seen = Ok (ps', seen') →
  ∃ ids new,
    ps' = ps ++ new
    ∧ seen' = list_to_set ids ∪ seen
    ∧ (import W <$> ids) = (Some <$> new)
    ∧ NoDup ids
    ∧ (∀ x, x ∈ ids → (x ∉ seen) ∧ x ∈ imps ∧ plain_import x)
    ∧ (∀ x, x ∈ imps → x ∈ seen').
Proof.
  induction imps as [|imp rest IH]; intros ps seen ps' seen' H; simpl in H.
  - injection H as <- <-. exists [], []. rewrite app_nil_r. simpl.
    split; [done|]. split; [by rewrite (left_id_L ∅ (∪))|]. split; [done|].
    split; [constructor|]. split; intros x Hx; by apply elem_of_nil in Hx.
  - destruct (decide (imp ∈ seen)) as [Hseen|Hnew].
    { destruct (IH _ _ _ _ H) as (ids & new & -> & -> & Himp & Hnd & Hids & Hall).
      exists ids, new. do 4 (split; [done|]). split.
      - intros x Hx. destruct (Hids x Hx) as (Hn & Hr & Hp).
        split; [done|]. split; [|done]. apply elem_of_cons. by right.
      - intros x [->|Hx]%elem_of_cons; [|by apply Hall].
        apply elem_of_union. by right. }
    destruct (String.eqb imp "C") eqn:HC; [discriminate|].
    destruct (HasPrefix imp ".") eqn:Hdot; [discriminate|]. simpl in H.
    destruct (import W imp) as [impPkg|] eqn:Hres; [|discriminate].
    destruct (IH _ _ _ _ H) as (ids & new & -> & -> & Himp & Hnd & Hids & Hall).
    exists (imp :: ids), (impPkg :: new).
    split; [by rewrite <- app_assoc|].
    split; [set_solver|].
    split; [by rewrite !fmap_cons, Hres, Himp|].
    split.
    { constructor; [|done]. intros Hin. apply Hids in Hin as (Hn & _).
      apply Hn, elem_of_union. left. by apply elem_of_singleton. }
    split.
    + intros x [->|Hx]%elem_of_cons.
      * split; [done|]. split; [apply elem_of_cons; by left|].
        split; [by apply String.eqb_neq|done].
      * destruct (Hids x Hx) as (Hn & Hr & Hp). split.
        -- intros Hs. apply Hn, elem_of_union. by right.
        -- split; [|done]. apply elem_of_cons. by right.
    + intros x [->|Hx]%elem_of_cons; [|by apply Hall].
      apply elem_of_union. right. apply elem_of_union. left. by apply elem_of_singleton.
Qed.

(** The state of the outer loop before iteration [i]. *)
Record resolving (root : Package) (i : nat) (st : rstate) : Prop := {
  res_ids : ∃ ids tail,
    pkgs st = root :: tail ∧ NoDup ids ∧ seenPkgs st = list_to_set ids
    ∧ (import W <$> ids) = (Some <$> tail) ∧ Forall plain_import ids;
  res_done : ∀ j p imp,
    j < i → pkgs st !! j = Some p → Goroot p = false →
    add_ok W (PkgDir p) = true ∧ (imp ∈ Imports p → imp ∈ seenPkgs st)
}.

Lemma resolving_step root i st pkg ps seen w :
  resolving root i st → pkgs st !! i = Some pkg →
  add_ok W (PkgDir pkg) = true →
  range_imports W (Imports pkg) (pkgs st) (seenPkgs st) = Ok (ps, seen) →
  resolving root (S i) {| pkgs := ps; seenPkgs := seen; watched := w |}.
Proof.
  intros [(ids & tail & Hps & Hnd & Hseen & Himp & Hplain) Hdone] Hi Hok H.
  apply range_imports_spec in H as (ids' & new & -> & -> & Himp' & Hnd' & Hids' & Hall).
  split; simpl.
  - exists (ids ++ ids'), (tail ++ new). repeat split.
    + by rewrite Hps.
    + apply NoDup_app. repeat split; try done.
      intros x Hx Hx'. apply Hids' in Hx' as (Hn & _). apply Hn.
      rewrite Hseen. by apply elem_of_list_to_set.
    + rewrite Hseen, list_to_set_app_L. apply (comm_L (∪)).
    + by rewrite !fmap_app, Himp, Himp'.
    + apply Forall_app. split; [done|]. apply Forall_forall. intros x Hx.
      by apply Hids'.
  - intros j p imp Hj Hp Hg. destruct (decide (j = i)) as [->|Hne].
    + rewrite lookup_app_l in Hp by (by eapply lookup_lt_Some).
      rewrite Hi in Hp. injection Hp as <-. split; [done|]. apply Hall.
    + assert (j < i) as Hlt by lia.
      assert (j < length (pkgs st)).
      { apply lookup_lt_Some in Hi. lia. }
      rewrite lookup_app_l in Hp by done.
      destruct (Hdone j p imp Hlt Hp Hg) as [Ha Hs]. split; [done|].
      intros Hin. apply elem_of_union. right. by apply Hs.
Qed.

Lemma range_pkgs_resolving root fuel : ∀ i st st',
  resolving root i st → range_pkgs W fuel i st = Ok st' →
  resolving root (length (pkgs st')) st'.
Proof.
  induction fuel as [|fuel IH]; intros i st st' Hinv H; [discriminate|].
  simpl in H. destruct (pkgs st !! i) as [pkg|] eqn:Hi.
  - destruct (Goroot pkg) eqn:Hg.
    + eapply IH; [|exact H]. destruct Hinv as [Hids Hdone]. split; [done|].
      intros j p imp Hj Hp Hgp. destruct (decide (j = i)) as [->|Hne].
      * rewrite Hi in Hp. injection Hp as <-. congruence.
      * apply (Hdone j); [lia|done|done].
    + unfold watcher_Add in H. destruct (add_ok W (PkgDir pkg)) eqn:Hok; [|discriminate].
      simpl in H.
      destruct (range_imports W (Imports pkg) (pkgs st) (seenPkgs st))
        as [[ps seen]| | |] eqn:Himp; try discriminate.
      eapply IH; [|exact H]. by eapply resolving_step.
  - injection H as <-. destruct Hinv as [Hids Hdone]. split; [done|].
    intros j p imp Hj Hp Hgp. apply lookup_ge_None in Hi.
    destruct (decide (j < i)) as [Hlt|Hge]; [by apply (Hdone j)|].
    apply lookup_lt_Some in Hp. lia.
Qed.

Lemma resolving_start root : resolving root 0 {| pkgs := [root]; seenPkgs := ∅; watched := ∅ |}.
Proof.
  split; simpl.
  - exists [], []. repeat split; try done; constructor.
  - intros j p imp Hj. lia.
Qed.

(** X2.  No partial graph: when resolution ends with the list of units, the
    directory of every unit that is not a foundation-library member was
    accepted by the watcher, and every identifier such a unit names is
    plain, was resolved, and its unit is in the list. *)
Theorem resolve_no_partial_graph fuel root st p imp :
  resolve W fuel root = Ok st →
  p ∈ pkgs st → Goroot p = false → imp ∈ Imports p →
  add_ok W (PkgDir p) = true
  ∧ plain_import imp
  ∧ ∃ q, import W imp = Some q ∧ q ∈ pkgs st.
Proof.
  intros H Hp Hg Himp. unfold resolve in H.
  apply (range_pkgs_resolving root) in H; [|apply resolving_start].
  destruct H as [(ids & tail & Hps & Hnd & Hseen & Hres & Hplain) Hdone].
  apply list_elem_of_lookup in Hp as [j Hj].
  destruct (Hdone j p imp (lookup_lt_Some _ _ _ Hj) Hj Hg) as [Hok Hs].
  split; [done|]. specialize (Hs Himp). rewrite Hseen in Hs.
  apply elem_of_list_to_set in Hs.
  split; [by eapply Forall_forall in Hplain|].
  apply list_elem_of_lookup in Hs as [k Hk].
  assert (Hq : (import W <$> ids) !! k = Some (import W imp))
    by (by rewrite list_lookup_fmap, Hk).
  rewrite Hres, list_lookup_fmap in Hq.
  destruct (tail !! k) as [q|] eqn:Hq'; [|discriminate].
  simpl in Hq. injection Hq as Hq. exists q. split; [done|].
  rewrite Hps. apply elem_of_cons. right. apply list_elem_of_lookup. by exists k.
Qed.

(** X3.  Visited once: the list of units is the root followed by the units of
    the identifiers seen, one unit per identifier, no identifier twice,
    in whatever order the units were appended. *)
Theorem resolve_visits_once fuel root st :
  resolve W fuel root = Ok st →
  ∃ ids tail,
    pkgs st = root :: tail
    ∧ NoDup ids
    ∧ seenPkgs st = list_to_set ids
    ∧ (import W <$> ids) = (Some <$> tail)
    ∧ length (pkgs st) = S (size (seenPkgs st)).
Proof.
  intros H. unfold resolve in H.
  apply (range_pkgs_resolving root) in H; [|apply resolving_start].
  destruct H as [(ids & tail & Hps & Hnd & Hseen & Hres & Hplain) _].
  exists ids, tail. repeat split; try done.
  rewrite Hps, Hseen, size_list_to_set by done. simpl. f_equal.
  by rewrite <- (length_fmap Some tail), <- Hres, length_fmap.
Qed.

End resolver_graph.

Section resolver_graph_examples.

Import Path Rego.

Lemma closed_sample : closed Sample.world {[ "fmt"; "io" ]}.
Proof.
  intros imp p x Himp Hres Hx.
  apply elem_of_union in Himp as [Himp|Himp]; apply elem_of_singleton in Himp;
    subst imp; vm_compute in Hres; injection Hres as <-.
  - apply list_elem_of_singleton in Hx as ->.
    apply elem_of_union. right. by apply elem_of_singleton.
  - by apply elem_of_nil in Hx.
Qed.

Lemma resolve_finishes_witness :
  resolve Sample.world 4 Sample.tool ≠ Unfinished.
Proof.
  apply (resolve_finishes Sample.world {[ "fmt"; "io" ]} 4 Sample.tool).
  - exact closed_sample.
  - intros x Hx. apply list_elem_of_singleton in Hx as ->.
    apply elem_of_union. left. by apply elem_of_singleton.
  - vm_compute. lia.
Defined.

Lemma resolve_no_partial_graph_witness :
  add_ok Sample.world "/src/tool" = true
  ∧ plain_import "fmt"
  ∧ ∃ q, import Sample.world "fmt" = Some q
         ∧ q ∈ [Sample.tool; Sample.fmt].
Proof.
  apply (resolve_no_partial_graph Sample.world 3 Sample.tool _ Sample.tool "fmt"
           resolve_tool).
  - apply elem_of_cons. by left.
  - reflexivity.
  - apply elem_of_cons. by left.
Defined.

Lemma resolve_visits_once_witness :
  ∃ ids tail,
    [Sample.tool; Sample.fmt] = Sample.tool :: tail
    ∧ NoDup ids
    ∧ ({[ "fmt" ]} : gset string) = list_to_set ids
    ∧ (import Sample.world <$> ids) = (Some <$> tail)
    ∧ 2 = S (size ({[ "fmt" ]} : gset string)).
Proof.
  exact (resolve_visits_once Sample.world 3 Sample.tool _ resolve_tool).
Defined.

End resolver_graph_examples.

(** * The earlier iteration of the resolver *)

Section resolver_v1.

Import Path Rego.

Context (W : World).

(** X4.  The sentinel is passed over: the loop runs as on the identifiers
    without it. *)
Theorem v1_sentinel_skipped imps : ∀ ps seen,
  RegoV1.range_imports W imps ps seen
  = RegoV1.range_imports W (filter (λ imp, imp ≠ "C") imps) ps seen.
Proof.
  induction imps as [|imp rest IH]; intros ps seen; [done|].
  destruct (decide (imp = "C")) as [->|Hne].
  - rewrite filter_cons_False by (intros H; by apply H).
    simpl. destruct (decide ("C" ∈ seen)); apply IH.
  - rewrite filter_cons_True by done. simpl.
    destruct (decide (imp ∈ seen)); [apply IH|].
    apply String.eqb_neq in Hne. rewrite Hne.
    destruct (import W imp); [apply IH|done].
Qed.

Lemma v1_range_imports_appends imps : ∀ ps seen ps' seen',
  RegoV1.range_imports W imps ps seen = Ok (ps', seen') → ∃ new, ps' = ps ++ new.
Proof.
  induction imps as [|imp rest IH]; intros ps seen ps' seen' H; simpl in H.
  - injection H as <- <-. exists []. by rewrite app_nil_r.
  - destruct (decide (imp ∈ seen)); [by eapply IH|].
    destruct (String.eqb imp "C"); [by eapply IH|].
    destruct (import W imp) as [impPkg|]; [|discriminate].
    apply IH in H as [new ->]. exists (impPkg :: new). by rewrite <- app_assoc.
Qed.

Lemma add_files_watches dir files : ∀ w w',
  RegoV1.add_files W dir files w = Some w' →
  w ⊆ w' ∧ ∀ file, file ∈ files → Join dir file ∈ w'.
Proof.
  induction files as [|f rest IH]; intros w w' H; simpl in H.
  - injection H as <-. split; [done|]. intros file Hf. by apply elem_of_nil in Hf.
  - unfold watcher_Add in H. destruct (add_ok W (Join dir f)); [|discriminate].
    apply IH in H as [Hsub Hall]. split.
    + intros x Hx. apply Hsub, elem_of_union. by right.
    + intros file [->|Hf]%elem_of_cons; [|by apply Hall].
      apply Hsub, elem_of_union. left. by apply elem_of_singleton.
Qed.

Lemma v1_range_pkgs_watches fuel : ∀ i st st',
  (∀ j p, j < i → pkgs st !! j = Some p →
     PkgDir p ∈ watched st ∧ ∀ file, file ∈ GoFiles p → Join (PkgDir p) file ∈ watched st) →
  RegoV1.range_pkgs W fuel i st = Ok st' →
  ∀ p, p ∈ pkgs st' →
    PkgDir p ∈ watched st' ∧ ∀ file, file ∈ GoFiles p → Join (PkgDir p) file ∈ watched st'.
Proof.
  induction fuel as [|fuel IH]; intros i st st' Hinv H; [discriminate|].
  simpl in H. destruct (pkgs st !! i) as [pkg|] eqn:Hi.
  - unfold watcher_Add in H. destruct (add_ok W (PkgDir pkg)); [|discriminate].
    simpl in H.
    destruct (RegoV1.add_files W (PkgDir pkg) (GoFiles pkg) ({[PkgDir pkg]} ∪ watched st))
      as [w'|] eqn:Hfiles; [|discriminate].
    destruct (RegoV1.range_imports W (Imports pkg) (pkgs st) (seenPkgs st))
      as [[ps seen]| | |] eqn:Himp; try discriminate.
    apply v1_range_imports_appends in Himp as [new ->].
    apply add_files_watches in Hfiles as [Hsub Hall].
    eapply IH; [|exact H]. simpl. intros j p Hj Hp.
    assert (i < length (pkgs st)) by (by eapply lookup_lt_Some).
    rewrite lookup_app_l in Hp by lia.
    destruct (decide (j = i)) as [->|Hne].
    + rewrite Hi in Hp. injection Hp as <-. split; [|done].
      apply Hsub, elem_of_union. left. by apply elem_of_singleton.
    + destruct (Hinv j p) as [Hd Hf]; [lia|done|]. split.
      * apply Hsub, elem_of_union. by right.
      * intros file Hfile. apply Hsub, elem_of_union. right. by apply Hf.
  - injection H as <-. intros p Hp. apply list_elem_of_lookup in Hp as [j Hj].
    apply (Hinv j); [|done]. apply lookup_ge_None in Hi.
    apply lookup_lt_Some in Hj. lia.
Qed.

(** X5.  The earlier iteration subscribes to the directory and to every Go
    file of every unit of the traversal, foundation-library units
    included. *)
Theorem v1_watches_every_unit fuel root st p :
  RegoV1.resolve W fuel root = Ok st → p ∈ pkgs st →
  PkgDir p ∈ watched st
  ∧ ∀ file, file ∈ GoFiles p → Join (PkgDir p) file ∈ watched st.
Proof.
  intros H Hp. unfold RegoV1.resolve in H.
  eapply v1_range_pkgs_watches; [|exact H|exact Hp].
  intros j q Hj. lia.
Qed.

(** *** Where the two iterations agree *)








End resolver_v1.

Section resolver_both.

Import Path Rego.





End resolver_both.

Section resolver_v1_examples.

Import Path Rego.

Lemma v1_watches_every_unit_witness :
  ∃ st, RegoV1.resolve Sample.workspace 4 Sample.site = Ok st
        ∧ "/src/site" ∈ watched st
        ∧ ∀ file, file ∈ ["site.go"; "routes.go"] → Join "/src/site" file ∈ watched st.
Proof.
  eexists. split; [vm_compute; reflexivity|].
  apply (v1_watches_every_unit Sample.workspace 4 Sample.site _ Sample.site).
  - vm_compute. reflexivity.
  - apply elem_of_cons. by left.
Defined.




End resolver_v1_examples.

(** * Further properties of the event handler *)

Section handler_more.

Import Path Rego.

Context (cfg : Config) (W : World).

(** What the walk callback appends: a directory always, a file when its
    name matches, nothing for an entry reported with an error. *)
Definition watchable (name : string) (n : node) : Prop :=
  match n with
  | Dir _ => True
  | File => matchFile cfg name = true
  | Broken => False
  end.

Lemma walk_sound : ∀ n path name p,
  p ∈ walk cfg path name n →
  ∃ name' n', inside path name n p name' n' ∧ watchable name' n'.
Proof.
  fix IH 1. intros [|entries|] path name p Hp; simpl in Hp.
  - destruct (matchFile cfg name) eqn:Hm; [|by apply elem_of_nil in Hp].
    apply list_elem_of_singleton in Hp as ->. exists name, File. split; [constructor|done].
  - apply elem_of_cons in Hp as [->|Hp].
    { exists name, (Dir entries). split; [constructor|done]. }
    assert (Hsub : ∀ es, (∀ e, e ∈ es → e ∈ entries) →
              p ∈ flat_map (λ e, walk cfg (Join path e.1) e.1 e.2) es →
              ∃ name' n', inside path name (Dir entries) p name' n' ∧ watchable name' n').
    { clear Hp. intros es. induction es as [|e rest IHrest]; intros Hes Hp; simpl in Hp.
      - by apply elem_of_nil in Hp.
      - apply elem_of_app in Hp as [Hp|Hp].
        + destruct e as [nm c]. simpl in Hp.
          destruct (IH c _ _ _ Hp) as (name' & n' & Hin & Hw).
          exists name', n'. split; [|done].
          eapply (inside_entry _ _ _ (nm, c)); [|done].
          apply Hes, elem_of_cons. by left.
        + apply IHrest; [|done]. intros x Hx. apply Hes, elem_of_cons. by right. }
    by apply (Hsub entries).
  - by apply elem_of_nil in Hp.
Qed.

(** X7.  The walk hands over exactly the directories it comes across and the
    files whose name matches; entries reported with an error, and what
    lies below them, are left out. *)
Theorem walk_exact path name n p :
  p ∈ walk cfg path name n
  ↔ ∃ name' n', inside path name n p name' n' ∧ watchable name' n'.
Proof.
  split; [apply walk_sound|].
  intros (name' & n' & Hin & Hw). destruct n' as [|entries'|]; [|..|done].
  - by eapply walk_matching_files.
  - by eapply walk_directories.
Qed.

(** The subscriptions after the loop over [paths]: those before and the
    paths the primitive accepted. *)
Lemma add_paths_watch_set paths : ∀ w,
  (add_paths cfg W paths w).1
  = w ∪ list_to_set (filter (λ p, add_ok W p = true) paths).
Proof.
  induction paths as [|p rest IH]; intros w; simpl.
  - by rewrite (right_id_L ∅ (∪)).
  - unfold watcher_Add. destruct (add_ok W p) eqn:Hok.
    + specialize (IH ({[p]} ∪ w)).
      destruct (add_paths cfg W rest ({[p]} ∪ w)) as [w2 tr]. simpl in *.
      rewrite IH, filter_cons_True by done. set_solver.
    + specialize (IH w). destruct (add_paths cfg W rest w) as [w2 tr]. simpl in *.
      rewrite IH, filter_cons_False by (by rewrite Hok). done.
Qed.

Lemma add_paths_no_send paths : ∀ w,
  List.filter is_send (add_paths cfg W paths w).2 = [].
Proof.
  induction paths as [|p rest IH]; intros w; simpl; [done|].
  destruct (watcher_Add W p w) as [w1 ok]. specialize (IH w1).
  destruct (add_paths cfg W rest w1) as [w2 tr]. simpl in *.
  unfold vlog. destruct (verbose cfg), ok; simpl; exact IH.
Qed.

(** The paths an event can bring into the watch set. *)
Definition candidates (ev : Event) : list string :=
  match EvOp ev, stat W (Name ev) with
  | (Create | Rename | Write), Some (Dir entries) =>
      Name ev :: walk cfg (Name ev) (Base (Name ev)) (Dir entries)
  | (Create | Rename | Write), Some File =>
      if matchFile cfg (Name ev) then [Name ev] else []
  | _, _ => []
  end.

(** X8.  The watch set after an event, for every kind of event: a removal
    takes out the path of the event and nothing else, every other event
    keeps all subscriptions and adds the candidates the primitive
    accepts. *)
Theorem on_event_watch_set w ev :
  (on_event cfg W w ev).1
  = match EvOp ev with
    | Remove => w ∖ {[Name ev]}
    | _ => w ∪ list_to_set (filter (λ p, add_ok W p = true) (candidates ev))
    end.
Proof.
  unfold on_event, candidates.
  assert (Hnone : w = w ∪ list_to_set (filter (λ p, add_ok W p = true) []))
    by (rewrite filter_nil; simpl; by rewrite (right_id_L ∅ (∪))).
  assert (Hadd : ∀ paths send,
    (let '(w', tr) := add_paths cfg W paths w in (w', tr ++ send)).1
    = w ∪ list_to_set (filter (λ p, add_ok W p = true) paths)).
  { intros paths send. rewrite <- add_paths_watch_set.
    by destruct (add_paths cfg W paths w). }
  destruct (EvOp ev).
  - destruct (stat W (Name ev)) as [[|entries|]|]; try exact Hnone; [|apply Hadd].
    destruct (matchFile cfg (Name ev)); [apply Hadd|exact Hnone].
  - destruct (stat W (Name ev)) as [[|entries|]|]; try exact Hnone; [|apply Hadd].
    destruct (matchFile cfg (Name ev)); [apply Hadd|exact Hnone].
  - unfold watcher_Remove. destruct (decide (Name ev ∈ w)) as [Hin|Hout]; simpl; [done|].
    set_solver.
  - destruct (stat W (Name ev)) as [[|entries|]|]; try exact Hnone; [|apply Hadd].
    destruct (matchFile cfg (Name ev)); [apply Hadd|exact Hnone].
  - exact Hnone.
Qed.

Lemma step_event_trigger s ev :
  ∃ s' tr,
    step cfg W s (FsEvent ev) = (Running s', tr)
    ∧ (List.filter is_send tr = [] ∧ needsInstall s' = needsInstall s
       ∨ List.filter is_send tr = [SendInstall] ∧ needsInstall s' = S (needsInstall s)
         ∧ ∃ before, tr = before ++ [SendInstall]).
Proof.
  assert (Hv : ∀ what arg, List.filter is_send (vlog cfg what arg) = []).
  { intros. unfold vlog. by destruct (verbose cfg). }
  assert (Hex : ∀ tr, existsb is_send tr = match List.filter is_send tr with
                                            | [] => false | _ => true end).
  { induction tr as [|a tr IHtr]; [done|]. simpl. destruct (is_send a); simpl; [done|].
    exact IHtr. }
  assert (Hsent : ∀ before w',
    List.filter is_send before = [] →
    ∃ s' tr,
      (let '(w0, tr0) := (w', before ++ vlog cfg "event" (Name ev) ++ [SendInstall]) in
       (Running {| watchset := w0;
                   needsInstall := if existsb is_send tr0 then S (needsInstall s)
                                   else needsInstall s;
                   nrestarts := nrestarts s; proc := proc s |}, tr0))
      = (Running s', tr)
      ∧ (List.filter is_send tr = [] ∧ needsInstall s' = needsInstall s
         ∨ List.filter is_send tr = [SendInstall] ∧ needsInstall s' = S (needsInstall s)
           ∧ ∃ before, tr = before ++ [SendInstall])).
  { intros before w' Hb. eexists _, _. split; [reflexivity|]. right.
    rewrite Hex, !List.filter_app, Hb, Hv. simpl. split; [done|]. split; [done|].
    exists (before ++ vlog cfg "event" (Name ev)). by rewrite <- app_assoc. }
  assert (Hquiet : ∀ tr0,
    List.filter is_send tr0 = [] →
    ∃ s' tr,
      (let '(w0, tr1) := (watchset s, tr0) in
       (Running {| watchset := w0;
                   needsInstall := if existsb is_send tr1 then S (needsInstall s)
                                   else needsInstall s;
                   nrestarts := nrestarts s; proc := proc s |}, tr1))
      = (Running s', tr)
      ∧ (List.filter is_send tr = [] ∧ needsInstall s' = needsInstall s
         ∨ List.filter is_send tr = [SendInstall] ∧ needsInstall s' = S (needsInstall s)
           ∧ ∃ before, tr = before ++ [SendInstall])).
  { intros tr0 H0. eexists _, _. split; [reflexivity|]. left. by rewrite Hex, H0. }
  assert (Hadd : ∀ paths,
    ∃ s' tr,
      (let '(w0, tr0) := (let '(w', tr) := add_paths cfg W paths (watchset s) in
                          (w', tr ++ vlog cfg "event" (Name ev) ++ [SendInstall])) in
       (Running {| watchset := w0;
                   needsInstall := if existsb is_send tr0 then S (needsInstall s)
                                   else needsInstall s;
                   nrestarts := nrestarts s; proc := proc s |}, tr0))
      = (Running s', tr)
      ∧ (List.filter is_send tr = [] ∧ needsInstall s' = needsInstall s
         ∨ List.filter is_send tr = [SendInstall] ∧ needsInstall s' = S (needsInstall s)
           ∧ ∃ before, tr = before ++ [SendInstall])).
  { intros paths. pose proof (add_paths_no_send paths (watchset s)) as Hn.
    destruct (add_paths cfg W paths (watchset s)) as [w' tr0]. by apply Hsent. }
  unfold step, on_event. destruct (EvOp ev).
  - destruct (stat W (Name ev)) as [[|entries|]|]; try (by apply Hquiet); [|apply Hadd].
    destruct (matchFile cfg (Name ev)); [apply Hadd|by apply Hquiet].
  - destruct (stat W (Name ev)) as [[|entries|]|]; try (by apply Hquiet); [|apply Hadd].
    destruct (matchFile cfg (Name ev)); [apply Hadd|by apply Hquiet].
  - destruct (watcher_Remove (Name ev) (watchset s)) as [w' ok].
    rewrite (app_assoc [WRemove (Name ev) ok]). apply Hsent.
    unfold vlog. by destruct ok, (verbose cfg).
  - destruct (stat W (Name ev)) as [[|entries|]|]; try (by apply Hquiet); [|apply Hadd].
    destruct (matchFile cfg (Name ev)); [apply Hadd|by apply Hquiet].
  - by apply Hquiet.
Qed.

(** X9.  An event sends at most one trigger, as its last action, and the
    counter of the queue goes up by as much. *)
Theorem on_event_one_trigger s ev :
  ∃ s' tr,
    step cfg W s (FsEvent ev) = (Running s', tr)
    ∧ (List.filter is_send tr = [] ∧ needsInstall s' = needsInstall s
       ∨ List.filter is_send tr = [SendInstall] ∧ needsInstall s' = S (needsInstall s)
         ∧ ∃ before, tr = before ++ [SendInstall]).
Proof. apply step_event_trigger. Qed.

(** An existing file that matches is handed to [w.Add] and a trigger is
    sent, whether or not the primitive accepts the path. *)
Lemma on_event_file_matching w ev :
  EvOp ev = Create ∨ EvOp ev = Rename ∨ EvOp ev = Write →
  stat W (Name ev) = Some File → matchFile cfg (Name ev) = true →
  on_event cfg W w ev
  = ((if add_ok W (Name ev) then {[Name ev]} ∪ w else w),
     vlog cfg "Watch" (Name ev) ++ [WAdd (Name ev) (add_ok W (Name ev))]
       ++ (if add_ok W (Name ev) then [] else vlog cfg "error" (Name ev))
       ++ vlog cfg "event" (Name ev) ++ [SendInstall]).
Proof.
  intros Hop Hstat Hm. unfold on_event. rewrite Hstat, Hm. simpl.
  unfold watcher_Add.
  destruct Hop as [ -> | [ -> | -> ] ]; destruct (add_ok W (Name ev));
    cbn [fst snd app]; rewrite ?app_nil_r, <- ?app_assoc; reflexivity.
Qed.

(** X10.  A file among the extra paths triggers a build on create, rename and
    write whatever its extension and its name, dot files included. *)
Theorem extra_path_triggers s ev :
  extraPaths cfg !! Name ev = Some true →
  EvOp ev = Create ∨ EvOp ev = Rename ∨ EvOp ev = Write →
  stat W (Name ev) = Some File →
  ∃ s' tr,
    step cfg W s (FsEvent ev) = (Running s', tr)
    ∧ needsInstall s' = S (needsInstall s)
    ∧ WAdd (Name ev) (add_ok W (Name ev)) ∈ tr
    ∧ SendInstall ∈ tr.
Proof.
  intros Hextra Hop Hstat.
  assert (Hm : matchFile cfg (Name ev) = true).
  { unfold matchFile, extra. rewrite Hextra. simpl. apply orb_true_r. }
  unfold step. rewrite (on_event_file_matching (watchset s) ev Hop Hstat Hm).
  eexists _, _. split; [reflexivity|]. simpl. split; [|split].
  - unfold vlog. destruct (verbose cfg), (add_ok W (Name ev)); reflexivity.
  - in_trace.
  - in_trace.
Qed.

(** X11.  Subscribing and unsubscribing undo each other: a create event
    for a matching file that was not watched puts it in the watch set,
    a removal event for it takes it out again, and the watch set is as
    before; both events send a trigger. *)
Theorem create_then_remove w name :
  name ∉ w → stat W name = Some File → matchFile cfg name = true →
  add_ok W name = true →
  let created := on_event cfg W w {| Name := name; EvOp := Create |} in
  let removed := on_event cfg W created.1 {| Name := name; EvOp := Remove |} in
  name ∈ created.1
  ∧ removed.1 = w
  ∧ SendInstall ∈ created.2 ∧ SendInstall ∈ removed.2.
Proof.
  intros Hnew Hstat Hm Hok. cbv zeta.
  rewrite (on_event_file_matching w {| Name := name; EvOp := Create |});
    [|by left|done|done]. simpl. rewrite Hok. simpl.
  assert (Hin : name ∈ {[name]} ∪ w) by (apply elem_of_union; left; by apply elem_of_singleton).
  split; [done|]. unfold on_event. simpl. unfold watcher_Remove.
  rewrite decide_True by done. simpl. split; [|split].
  - apply set_eq. intros x. rewrite elem_of_difference, elem_of_union, !elem_of_singleton.
    split; [intros [[->|Hx] Hne]; done|]. intros Hx. split; [by right|]. by intros ->.
  - in_trace.
  - in_trace.
Qed.

End handler_more.

(** ** Names of directory entries *)

Section entry_names.

Import Path Rego.

(** A name as the walk gets it from a directory listing: not empty, no
    separator in it. *)
Definition bare (name : string) : Prop :=
  name ≠ "" ∧ Forall (λ c, IsPathSeparator c = false) (chars name).

Lemma chars_append a b : chars (a +:+ b) = chars a ++ chars b.
Proof. unfold chars. induction a as [|c a IH]; simpl; [done|]. by rewrite IH. Qed.

Lemma chars_nil s : chars s = [] → s = "".
Proof. by destruct s. Qed.

Lemma ext_scan_stops l : ∀ c r suffix,
  Forall (λ c, IsPathSeparator c = false) l → IsPathSeparator c = true →
  ext_scan (l ++ c :: r) suffix = ext_scan l suffix.
Proof.
  induction l as [|x l IH]; intros c r suffix Hl Hc; simpl.
  - by rewrite Hc.
  - apply Forall_cons in Hl as [Hx Hl]. rewrite Hx.
    destruct (Ascii.eqb x "."); [done|]. by apply IH.
Qed.

Lemma last_element_stops l : ∀ c r suffix,
  Forall (λ c, IsPathSeparator c = false) l → IsPathSeparator c = true →
  last_element (l ++ c :: r) suffix = last_element l suffix.
Proof.
  induction l as [|x l IH]; intros c r suffix Hl Hc; simpl.
  - by rewrite Hc.
  - apply Forall_cons in Hl as [Hx Hl]. rewrite Hx. by apply IH.
Qed.

Lemma string_snoc t : ∀ x suffix,
  string_of_list_ascii (t ++ [x]) +:+ suffix
  = string_of_list_ascii t +:+ String x suffix.
Proof.
  induction t as [|y t IH]; intros x suffix; [done|].
  change (String y (string_of_list_ascii (t ++ [x]) +:+ suffix)
          = String y (string_of_list_ascii t +:+ String x suffix)).
  by rewrite IH.
Qed.

Lemma last_element_whole l : ∀ suffix,
  Forall (λ c, IsPathSeparator c = false) l →
  last_element l suffix = string_of_list_ascii (rev l) +:+ suffix.
Proof.
  induction l as [|x l IH]; intros suffix Hl; [done|].
  apply Forall_cons in Hl as [Hx Hl].
  cbn [last_element rev]. rewrite Hx, (IH _ Hl). symmetry. apply string_snoc.
Qed.

Lemma strip_seps_bare l :
  l ≠ [] → Forall (λ c, IsPathSeparator c = false) l → ∀ r, strip_seps (l ++ r) = l ++ r.
Proof.
  intros Hne Hl r. destruct l as [|x l]; [done|].
  apply Forall_cons in Hl as [Hx _]. simpl. by rewrite Hx.
Qed.

Lemma rev_chars_bare name :
  bare name →
  rev (chars name) ≠ [] ∧ Forall (λ c, IsPathSeparator c = false) (rev (chars name)).
Proof.
  intros [Hne Hall]. split.
  - intros H. apply Hne, chars_nil. apply (f_equal (@rev ascii)) in H.
    by rewrite rev_involutive in H.
  - apply Forall_forall. intros c Hc. eapply Forall_forall in Hall; [done|].
    apply list_elem_of_In. apply list_elem_of_In in Hc. by apply in_rev.
Qed.

(** The reversed bytes of the joined path: those of the name, a
    separator, the rest. *)
Lemma rev_chars_join dir name :
  dir ≠ "" →
  ∃ c r, IsPathSeparator c = true
         ∧ rev (chars (Join dir name)) = rev (chars name) ++ c :: r.
Proof.
  intros Hdir. unfold Join. destruct (rev (chars dir)) as [|c r] eqn:Hrev.
  - exfalso. apply Hdir, chars_nil. apply (f_equal (@rev ascii)) in Hrev.
    by rewrite rev_involutive in Hrev.
  - destruct (IsPathSeparator c) eqn:Hc.
    + exists c, r. split; [done|]. by rewrite chars_append, rev_app_distr, Hrev.
    + exists "/"%char, (c :: r). split; [done|].
      rewrite !chars_append, !rev_app_distr, Hrev. simpl. by rewrite <- app_assoc.
Qed.

Lemma join_name dir name :
  bare name → dir ≠ "" →
  Ext (Join dir name) = Ext name ∧ Base (Join dir name) = name ∧ Base name = name.
Proof.
  intros Hbare Hdir. destruct (rev_chars_bare name Hbare) as [Hne Hall].
  destruct (rev_chars_join dir name Hdir) as (c & r & Hc & Hrev).
  assert (Hlast : last_element (rev (chars name)) "" = name).
  { rewrite last_element_whole by done. rewrite rev_involutive.
    unfold chars. rewrite string_of_list_ascii_of_string.
    clear. induction name as [|x t IH]; [done|].
    change (String x (t +:+ "") = String x t). by rewrite IH. }
  assert (Hnonempty : ∀ s, rev (chars s) ≠ [] → String.eqb s "" = false).
  { intros s Hs. destruct s; [done|reflexivity]. }
  destruct Hbare as [Hname _]. apply String.eqb_neq in Hname.
  split; [|split].
  - unfold Ext. rewrite Hrev. by apply ext_scan_stops.
  - unfold Base. rewrite Hnonempty by (rewrite Hrev; by destruct (rev (chars name))).
    rewrite Hrev, strip_seps_bare by done.
    rewrite last_element_stops by done. by rewrite Hlast, Hname.
  - unfold Base. rewrite Hname.
    pose proof (strip_seps_bare _ Hne Hall []) as Hstrip.
    rewrite app_nil_r in Hstrip. by rewrite Hstrip, Hlast, Hname.
Qed.

(** For an entry of a directory, the extension and the last element of
    the joined path are those of the bare name. *)
Theorem join_keeps_name dir name :
  bare name → dir ≠ "" →
  Ext (Join dir name) = Ext name ∧ Base (Join dir name) = name ∧ Base name = name.
Proof. apply join_name. Qed.

(** X15.  Without extra paths, the verdict of [matchFile] on the bare name of
    an entry, which is what the walk asks for, is its verdict on the
    full path. *)
Theorem matchFile_entry cfg dir name :
  bare name → dir ≠ "" → extraPaths cfg = ∅ →
  matchFile cfg (Join dir name) = matchFile cfg name.
Proof.
  intros Hbare Hdir Hextra.
  destruct (join_name dir name Hbare Hdir) as (Hext & Hbase & Hname).
  unfold matchFile, extra. by rewrite Hextra, !lookup_empty, Hext, Hbase, Hname.
Qed.

Lemma join_keeps_name_witness :
  Ext (Join "/src/app" "main.go") = Ext "main.go"
  ∧ Base (Join "/src/app" "main.go") = "main.go" ∧ Base "main.go" = "main.go".
Proof.
  apply (join_keeps_name "/src/app" "main.go").
  - split; [discriminate|]. vm_compute. repeat constructor.
  - discriminate.
Defined.

Lemma matchFile_entry_witness :
  matchFile Sample.chatty (Join "/src/app" "main.go") = matchFile Sample.chatty "main.go".
Proof.
  apply (matchFile_entry Sample.chatty "/src/app" "main.go").
  - split; [discriminate|]. vm_compute. repeat constructor.
  - discriminate.
  - reflexivity.
Defined.

End entry_names.

(** * The loops over a sequence of messages *)

Section run_facts.

Import Path Rego.

Context (cfg : Config).

Definition count (f : action → bool) (tr : list action) : nat :=
  length (List.filter f tr).

Lemma count_app f tr1 tr2 : count f (tr1 ++ tr2) = count f tr1 + count f tr2.
Proof. unfold count. by rewrite List.filter_app, length_app. Qed.

(** What the goroutine of an event does: log lines, calls of the
    watcher, the send. *)
Definition handler_action (a : action) : Prop :=
  match a with
  | Log _ _ | WAdd _ _ | WRemove _ _ | SendInstall => True
  | _ => False
  end.

Lemma add_paths_actions W paths : ∀ w, Forall handler_action (add_paths cfg W paths w).2.
Proof.
  induction paths as [|p rest IH]; intros w; simpl; [constructor|].
  destruct (watcher_Add W p w) as [w1 ok]. specialize (IH w1).
  destruct (add_paths cfg W rest w1) as [w2 tr]. simpl in *.
  unfold vlog. destruct (verbose cfg), ok; simpl; repeat (constructor; [done|]); done.
Qed.

Lemma on_event_actions W w ev : Forall handler_action (on_event cfg W w ev).2.
Proof.
  assert (Hv : ∀ what arg, Forall handler_action (vlog cfg what arg)).
  { intros. unfold vlog. destruct (verbose cfg); repeat constructor. }
  assert (Hsend : Forall handler_action (vlog cfg "event" (Name ev) ++ [SendInstall])).
  { apply Forall_app. split; [apply Hv|repeat constructor]. }
  assert (Hadd : ∀ paths,
    Forall handler_action
      (let '(w', tr) := add_paths cfg W paths w in
       (w', tr ++ vlog cfg "event" (Name ev) ++ [SendInstall])).2).
  { intros paths. pose proof (add_paths_actions W paths w) as H.
    destruct (add_paths cfg W paths w) as [w' tr]. simpl in *.
    apply Forall_app. by split. }
  unfold on_event. destruct (EvOp ev).
  - destruct (stat W (Name ev)) as [[|entries|]|]; try apply Hv; [|apply Hadd].
    destruct (matchFile cfg (Name ev)); [apply Hadd|constructor].
  - destruct (stat W (Name ev)) as [[|entries|]|]; try apply Hv; [|apply Hadd].
    destruct (matchFile cfg (Name ev)); [apply Hadd|constructor].
  - destruct (watcher_Remove (Name ev) w) as [w' ok]. simpl.
    constructor; [done|]. apply Forall_app. split; [|done].
    destruct ok; [constructor|apply Hv].
  - destruct (stat W (Name ev)) as [[|entries|]|]; try apply Hv; [|apply Hadd].
    destruct (matchFile cfg (Name ev)); [apply Hadd|constructor].
  - constructor.
Qed.

Lemma count_handler f tr :
  (∀ a, handler_action a → f a = false) → Forall handler_action tr → count f tr = 0.
Proof.
  intros Hf Htr. unfold count. induction Htr as [|a tr Ha Htr IH]; [done|].
  simpl. by rewrite (Hf a Ha).
Qed.

(** *** No build without a trigger *)

(** One when the timer is armed. *)
Definition armed (n : nat) : nat := match n with 0 => 0 | S _ => 1 end.

Definition pending (st : status) : nat :=
  match st with Running s => armed (needsInstall s) | Exited _ => 0 end.

Lemma step_builds W s i :
  (count is_build (step cfg W s i).2 + pending (step cfg W s i).1
   ≤ count is_send (step cfg W s i).2 + armed (needsInstall s))%nat.
Proof.
  destruct i as [ev|err| |sig].
  - destruct (step_event_trigger cfg W s ev) as (s' & tr & E & Hcases).
    assert (Hb : count is_build tr = 0).
    { pose proof (on_event_actions W (watchset s) ev) as Ha.
      unfold step in E. destruct (on_event cfg W (watchset s) ev) as [w tr0].
      injection E as _ <-. apply count_handler; [|done]. by intros []. }
    rewrite E. cbn [fst snd pending]. unfold count in *. rewrite Hb.
    destruct Hcases as [[-> ->]|(-> & -> & _)]; cbn [length armed].
    all: lia.
  - simpl. lia.
  - unfold step, count. destruct (needsInstall s) as [|n] eqn:Hn;
      [simpl; rewrite Hn; simpl; lia|].
    unfold installAndRestart, supervisor, stop_proc, vlog.
    destruct (run_ok W), (verbose cfg), (timings cfg), (proc s) as [p|]; simpl;
      try destruct (signal_ok W p); simpl; try destruct (start W); simpl; lia.
  - unfold step, supervisor, stop_proc, count.
    destruct (proc s) as [p|]; simpl; try destruct (signal_ok W p); simpl; lia.
Qed.

(** X16.  Over any sequence of messages there are at most as many builds as
    triggers sent, one more when the timer was armed at the start, one
    less when it is armed at the end. *)
Theorem builds_follow_triggers ins : ∀ s,
  (count is_build (run cfg s ins).2 + pending (run cfg s ins).1
   ≤ count is_send (run cfg s ins).2 + armed (needsInstall s))%nat.
Proof.
  induction ins as [|[W i] rest IH]; intros s; [simpl; lia|].
  pose proof (step_builds W s i) as Hstep. simpl.
  destruct (step cfg W s i) as [[s'|code] tr]; [|exact Hstep].
  specialize (IH s'). destruct (run cfg s' rest) as [st tr'].
  simpl in *. rewrite !count_app. lia.
Qed.

(** *** Restarts *)




(** *** How the program ends *)

Definition is_exit (a : action) : bool :=
  match a with OsExit _ => true | _ => false end.

Lemma step_exit W s i :
  match (step cfg W s i).1 with
  | Running _ => count is_exit (step cfg W s i).2 = 0
  | Exited code =>
      ∃ before, (step cfg W s i).2 = before ++ [OsExit code]
                ∧ count is_exit before = 0
                ∧ (match i with
                   | OsSignal _ => code = 0%Z
                   | WatcherError _ => code = 1%Z
                   | _ => False
                   end)
  end.
Proof.
  destruct i as [ev|err| |sig].
  - pose proof (on_event_actions W (watchset s) ev) as Ha.
    unfold step. destruct (on_event cfg W (watchset s) ev) as [w tr]. simpl in *.
    apply count_handler; [|done]. by intros [].
  - simpl. by exists [Log "fatal" err].
  - unfold step. destruct (needsInstall s) as [|n]; [done|].
    unfold installAndRestart, supervisor, stop_proc, vlog.
    destruct (run_ok W), (verbose cfg), (timings cfg), (proc s) as [p|]; simpl;
      try destruct (signal_ok W p); simpl; try destruct (start W); done.
  - unfold step, supervisor, stop_proc. simpl.
    destruct (proc s) as [p|]; simpl.
    + destruct (signal_ok W p); simpl.
      * by exists [SendRestart false; Interrupt p true; Wait p].
      * by exists [SendRestart false; Interrupt p false; Log "error" "signal"; Kill p; Wait p].
    + by exists [SendRestart false].
Qed.

(** X18.  The program ends only on a registered signal, with status 0, or on a
    value on the error stream of the watcher, with status 1; the call of
    [os.Exit] is the last action and the only such call. *)
Theorem run_exit ins : ∀ s,
  match (run cfg s ins).1 with
  | Running _ => count is_exit (run cfg s ins).2 = 0
  | Exited code =>
      (∃ before, (run cfg s ins).2 = before ++ [OsExit code] ∧ count is_exit before = 0)
      ∧ (code = 0%Z ∧ (∃ W sig, (W, OsSignal sig) ∈ ins)
         ∨ code = 1%Z ∧ (∃ W err, (W, WatcherError err) ∈ ins))
  end.
Proof.
  induction ins as [|[W i] rest IH]; intros s; [done|].
  pose proof (step_exit W s i) as Hstep. simpl.
  destruct (step cfg W s i) as [[s1|code] tr]; simpl in *.
  - specialize (IH s1). destruct (run cfg s1 rest) as [[s2|code] tr']; simpl in *.
    + rewrite count_app. lia.
    + destruct IH as [(before & -> & Hb) Hwhy]. split.
      * exists (tr ++ before). rewrite count_app, app_assoc. split; [done|lia].
      * destruct Hwhy as [[-> (W' & sig & Hin)]|[-> (W' & err & Hin)]]; [left|right];
          (split; [done|]); eexists _, _; apply elem_of_cons; right; exact Hin.
  - destruct Hstep as (before & -> & Hb & Hi). split; [by exists before|].
    destruct i as [ev|err| |sig]; try done; [right|left]; (split; [done|]);
      eexists _, _; apply elem_of_cons; by left.
Qed.

(** *** One child at a time *)

(** The child alive after the actions of [tr] when [cur] is alive before
    them; [None] when a process is started while another is alive, or
    one that is not the child is signalled or waited for. *)
Fixpoint children (cur : option pid) (tr : list action) : option (option pid) :=
  match tr with
  | [] => Some cur
  | a :: rest =>
      match a with
      | Start _ new =>
          match cur with
          | None => children new rest
          | Some _ => None
          end
      | Wait p =>
          if decide (cur = Some p) then children None rest else None
      | Interrupt p _ | Kill p =>
          if decide (cur = Some p) then children cur rest else None
      | _ => children cur rest
      end
  end.

Lemma children_app tr1 : ∀ cur tr2,
  children cur (tr1 ++ tr2)
  = match children cur tr1 with Some c => children c tr2 | None => None end.
Proof.
  induction tr1 as [|a tr1 IH]; intros cur tr2; [done|].
  destruct a; simpl; try apply IH.
  - destruct (decide (cur = Some p)); [apply IH|done].
  - destruct (decide (cur = Some p)); [apply IH|done].
  - destruct (decide (cur = Some p)); [apply IH|done].
  - destruct cur; [done|apply IH].
Qed.

Lemma children_handler tr cur : Forall handler_action tr → children cur tr = Some cur.
Proof.
  intros H. induction H as [|a tr Ha Htr IH]; [done|]. by destruct a.
Qed.

Lemma step_children W s i :
  ∃ c, children (proc s) (step cfg W s i).2 = Some c
       ∧ ∀ s', (step cfg W s i).1 = Running s' → proc s' = c.
Proof.
  destruct i as [ev|err| |sig].
  - pose proof (on_event_actions W (watchset s) ev) as Ha.
    unfold step. destruct (on_event cfg W (watchset s) ev) as [w tr]. simpl in *.
    exists (proc s). split; [by apply children_handler|]. by intros s' [= <-].
  - simpl. eexists. split; [done|discriminate].
  - unfold step. destruct (needsInstall s) as [|n].
    { simpl. eexists. split; [done|]. by intros s' [= <-]. }
    unfold installAndRestart, supervisor, stop_proc, vlog.
    destruct (run_ok W), (verbose cfg), (timings cfg), (proc s) as [p|]; simpl;
      try destruct (signal_ok W p); simpl; rewrite ?decide_True by done;
      try destruct (start W); simpl; rewrite ?decide_True by done;
      (eexists; split; [reflexivity|]); by intros s' [= <-].
  - unfold step, supervisor, stop_proc.
    destruct (proc s) as [p|]; simpl; try destruct (signal_ok W p); simpl;
      rewrite ?decide_True by done; (eexists; split; [reflexivity|]); discriminate.
Qed.

(** X19.  Over any sequence of messages, a process is started only when no
    child is alive, only the child at the time is signalled or waited
    for, and the handle held at the end is the child alive then. *)
Theorem one_child_at_a_time ins : ∀ s,
  ∃ c, children (proc s) (run cfg s ins).2 = Some c
       ∧ ∀ s', (run cfg s ins).1 = Running s' → proc s' = c.
Proof.
  induction ins as [|[W i] rest IH]; intros s.
  { exists (proc s). split; [done|]. by intros s' [= <-]. }
  destruct (step_children W s i) as (c & Hc & Hs). simpl.
  destruct (step cfg W s i) as [[s1|code] tr]; simpl in *.
  - destruct (IH s1) as (c' & Hc' & Hs'). rewrite (Hs s1 eq_refl) in Hc'.
    destruct (run cfg s1 rest) as [st tr']. simpl in *.
    exists c'. rewrite children_app, Hc. by split.
  - exists c. split; [done|discriminate].
Qed.

End run_facts.

Section handler_examples.

Import Path Rego.

Lemma extra_path_triggers_witness :
  ∃ s' tr,
    step Sample.cfg Sample.flat Sample.serving
      (FsEvent {| Name := "/src/app/assets/page.html"; EvOp := Write |})
    = (Running s', tr)
    ∧ needsInstall s' = 2
    ∧ WAdd "/src/app/assets/page.html" true ∈ tr
    ∧ SendInstall ∈ tr.
Proof.
  apply (extra_path_triggers Sample.cfg Sample.flat
           Sample.serving {| Name := "/src/app/assets/page.html"; EvOp := Write |}).
  - vm_compute. reflexivity.
  - right. by right.
  - reflexivity.
Defined.

Lemma create_then_remove_witness :
  let created := on_event Sample.cfg Sample.flat {[ "/src/app" ]}
                   {| Name := "/src/app/api.go"; EvOp := Create |} in
  let removed := on_event Sample.cfg Sample.flat created.1
                   {| Name := "/src/app/api.go"; EvOp := Remove |} in
  "/src/app/api.go" ∈ created.1
  ∧ removed.1 = {[ "/src/app" ]}
  ∧ SendInstall ∈ created.2 ∧ SendInstall ∈ removed.2.
Proof.
  apply (create_then_remove Sample.cfg Sample.flat {[ "/src/app" ]} "/src/app/api.go").
  - intros H. apply elem_of_singleton in H. discriminate.
  - reflexivity.
  - vm_compute. reflexivity.
  - reflexivity.
Defined.

End handler_examples.

(** * More on the trigger queue against the clock *)

Section debounce_more.

Import Rego.

(** [spaced gap t ts]: each trigger comes at least [gap] after the one
    before, the first of [ts] after [t]. *)
Fixpoint spaced (gap t : Z) (ts : list Z) : Prop :=
  match ts with
  | [] => True
  | t' :: rest => (t + gap ≤ t')%Z ∧ spaced gap t' rest
  end.

Lemma debounce_spaced_from build_ms ts : ∀ now,
  (0 ≤ build_ms)%Z → spaced (quiet + build_ms) now ts →
  debounce build_ms now 1 ts = ((λ t, (t + quiet)%Z) <$> now :: ts, 0).
Proof.
  induction ts as [|t rest IH]; intros now Hb Hs; [done|].
  destruct Hs as [Hgap Hs]. simpl.
  replace (now + quiet <=? t)%Z with true by (symmetry; apply Z.leb_le; lia).
  rewrite Z.max_r by lia. by rewrite (IH t Hb Hs).
Qed.

(** X20.  Triggers that come a quiet period and a build apart are built one by
    one, each a quiet period after it came. *)
Theorem debounce_spaced build_ms now t0 ts :
  (now ≤ t0)%Z → (0 ≤ build_ms)%Z → spaced (quiet + build_ms) t0 ts →
  debounce build_ms now 0 (t0 :: ts) = ((λ t, (t + quiet)%Z) <$> t0 :: ts, 0).
Proof.
  intros Hnow Hb Hs. simpl. rewrite Z.max_r by lia. by apply debounce_spaced_from.
Qed.

Lemma debounce_spaced_witness :
  debounce 1500 0 0 [100; 2000; 5000]%Z = ([300; 2200; 5200]%Z, 0).
Proof.
  apply (debounce_spaced 1500 0 100 [2000; 5000]%Z).
  - lia.
  - lia.
  - simpl. unfold quiet. lia.
Defined.

(** [apart gap l]: every element of [l] comes at least [gap] after each
    one before it. *)
Fixpoint apart (gap : Z) (l : list Z) : Prop :=
  match l with
  | [] => True
  | x :: rest => Forall (λ y, (x + gap ≤ y)%Z) rest ∧ apart gap rest
  end.

(** X21.  Whatever the arrival times: the counter is zero when the loop blocks
    for good, no build comes less than a quiet period after the loop
    started waiting, two builds are at least a quiet period and the time
    of a build apart, and there are no more builds than triggers, one
    more when the counter was positive at the start. *)
Theorem debounce_one_build_per_quiet_period build_ms ts : ∀ now n,
  (debounce build_ms now n ts).2 = 0
  ∧ Forall (λ x, (now + quiet ≤ x)%Z) (debounce build_ms now n ts).1
  ∧ apart (quiet + build_ms) (debounce build_ms now n ts).1
  ∧ (length (debounce build_ms now n ts).1 ≤ length ts + (match n with 0 => 0 | S _ => 1 end))%nat.
Proof.
  induction ts as [|t rest IH]; intros now n.
  - destruct n; simpl.
    + repeat split; try constructor; try lia.
    + split; [done|]. split; [repeat constructor; lia|]. split; [|lia].
      split; constructor.
  - simpl. destruct ((0 <? n)%nat && (now + quiet <=? t)%Z) eqn:Hc.
    + apply andb_true_iff in Hc as [Hn Ht]. apply Z.leb_le in Ht.
      apply Nat.ltb_lt in Hn.
      destruct (IH (Z.max (now + quiet + build_ms) t) 1) as (H0 & Hge & Hap & Hlen).
      destruct (debounce build_ms (Z.max (now + quiet + build_ms) t) 1 rest)
        as [builds k]. simpl in *.
      split; [done|]. split; [|split].
      * constructor; [lia|]. eapply Forall_impl; [exact Hge|]. simpl. intros x Hx.
        unfold quiet in *. lia.
      * split; [|done]. eapply Forall_impl; [exact Hge|]. simpl. intros x Hx.
        unfold quiet in *. lia.
      * destruct n; lia.
    + destruct (IH (Z.max now t) (S n)) as (H0 & Hge & Hap & Hlen).
      split; [done|]. split; [|split; [done|]].
      * eapply Forall_impl; [exact Hge|]. simpl. intros x Hx. lia.
      * destruct n; lia.
Qed.

End debounce_more.

(** * The extra watches at startup *)

Section extra_watches.

Import Path Rego.

Context (F : Files) (W : World).

(** Every key of [extraPaths] maps to true, is subscribed and was
    accepted by the primitive. *)
Definition keys_watched (w : gset string) (m : gmap string bool) : Prop :=
  ∀ k b, m !! k = Some b → b = true ∧ k ∈ w ∧ add_ok W k = true.

Lemma range_matches_spec matches : ∀ w m w' m',
  range_matches F W matches w m = Ok (w', m') →
  w ⊆ w'
  ∧ (keys_watched w m → keys_watched w' m')
  ∧ (∀ k, m !! k = Some true → m' !! k = Some true)
  ∧ (∀ k, is_Some (m' !! k) →
       is_Some (m !! k) ∨ ∃ path, path ∈ matches ∧ abs F path = Some k)
  ∧ (∀ path, path ∈ matches → ∃ k, abs F path = Some k ∧ m' !! k = Some true).
Proof.
  induction matches as [|path rest IH]; intros w m w' m' H; simpl in H.
  - injection H as <- <-. split; [done|]. split; [done|]. split; [done|]. split.
    + intros k Hk. by left.
    + intros path Hp. by apply elem_of_nil in Hp.
  - destruct (abs F path) as [k0|] eqn:Habs; [|discriminate].
    unfold watcher_Add in H. destruct (add_ok W k0) eqn:Hok; [|discriminate].
    apply IH in H as (Hsub & Hkeys & Hmono & Hfrom & Hall).
    split; [|split; [|split; [|split]]].
    + intros x Hx. apply Hsub, elem_of_union. by right.
    + intros Hk. apply Hkeys. intros k b Hkb.
      destruct (decide (k = k0)) as [->|Hne].
      * rewrite lookup_insert_eq in Hkb. injection Hkb as <-.
        repeat split; [|done]. apply elem_of_union. left. by apply elem_of_singleton.
      * rewrite lookup_insert_ne in Hkb by done.
        destruct (Hk k b Hkb) as (Hb & Hin & Ha). repeat split; try done.
        apply elem_of_union. by right.
    + intros k Hk. apply Hmono. destruct (decide (k = k0)) as [->|Hne].
      * by rewrite lookup_insert_eq.
      * by rewrite lookup_insert_ne.
    + intros k Hk. destruct (Hfrom k Hk) as [Hm|(p & Hp & Hpk)].
      * destruct (decide (k = k0)) as [->|Hne].
        -- right. exists path. split; [apply elem_of_cons; by left|done].
        -- rewrite lookup_insert_ne in Hm by done. by left.
      * right. exists p. split; [apply elem_of_cons; by right|done].
    + intros p [->|Hp]%elem_of_cons; [|by apply Hall].
      exists k0. split; [done|]. apply Hmono. by rewrite lookup_insert_eq.
Qed.

Lemma range_patterns_spec pats : ∀ w m w' m',
  range_patterns F W pats w m = Ok (w', m') →
  w ⊆ w'
  ∧ (keys_watched w m → keys_watched w' m')
  ∧ (∀ k, m !! k = Some true → m' !! k = Some true)
  ∧ (∀ k, is_Some (m' !! k) →
       is_Some (m !! k)
       ∨ ∃ pat matches path, pat ∈ pats ∧ glob F pat = Some matches
                             ∧ path ∈ matches ∧ abs F path = Some k)
  ∧ (∀ pat matches path, pat ∈ pats → glob F pat = Some matches → path ∈ matches →
       ∃ k, abs F path = Some k ∧ m' !! k = Some true).
Proof.
  induction pats as [|pat rest IH]; intros w m w' m' H; simpl in H.
  - injection H as <- <-. split; [done|]. split; [done|]. split; [done|]. split.
    + intros k Hk. by left.
    + intros pat matches path Hp. by apply elem_of_nil in Hp.
  - destruct (glob F pat) as [matches|] eqn:Hglob; [|discriminate].
    destruct (range_matches F W matches w m) as [[w1 m1]| | |] eqn:Hm; try discriminate.
    apply range_matches_spec in Hm as (Hsub1 & Hkeys1 & Hmono1 & Hfrom1 & Hall1).
    apply IH in H as (Hsub & Hkeys & Hmono & Hfrom & Hall).
    split; [|split; [|split; [|split]]].
    + intros x Hx. by apply Hsub, Hsub1.
    + intros Hk. by apply Hkeys, Hkeys1.
    + intros k Hk. by apply Hmono, Hmono1.
    + intros k Hk. destruct (Hfrom k Hk) as [Hm1|(p & ms & path & Hp & Hg & Hpath & Ha)].
      * destruct (Hfrom1 k Hm1) as [Hm0|(path & Hpath & Ha)]; [by left|].
        right. exists pat, matches, path. split; [apply elem_of_cons; by left|done].
      * right. exists p, ms, path. split; [apply elem_of_cons; by right|done].
    + intros p ms path [->|Hp]%elem_of_cons Hg Hpath.
      * rewrite Hglob in Hg. injection Hg as <-.
        destruct (Hall1 path Hpath) as (k & Ha & Hk). exists k. split; [done|].
        by apply Hmono.
      * by eapply Hall.
Qed.

(** X22.  When the extra watches are set up without a fatal error, the watch
    set has only grown, and [extraPaths] holds, each with the value true,
    exactly the absolute paths of the matches of the patterns, all of
    them subscribed; with an empty flag nothing is looked up and nothing
    changes. *)
Theorem init_extra_subscribes flag w w' m :
  init_extra F W flag w = Ok (w', m) →
  w ⊆ w'
  ∧ keys_watched w' m
  ∧ (∀ k, is_Some (m !! k) ↔
       flag ≠ "" ∧ ∃ pat matches path,
         pat ∈ Split flag ∧ glob F pat = Some matches
         ∧ path ∈ matches ∧ abs F path = Some k)
  ∧ (flag = "" → w' = w ∧ m = ∅).
Proof.
  unfold init_extra. destruct (String.eqb flag "") eqn:Hflag.
  - apply String.eqb_eq in Hflag as ->. intros [= <- <-].
    split; [done|]. split; [|split; [|done]].
    + intros k b Hk. by rewrite lookup_empty in Hk.
    + intros k. rewrite lookup_empty. split; [by intros [? ?]|by intros [? _]].
  - apply String.eqb_neq in Hflag. intros H.
    apply range_patterns_spec in H as (Hsub & Hkeys & Hmono & Hfrom & Hall).
    split; [done|]. split; [|split; [|done]].
    + apply Hkeys. intros k b Hk. by rewrite lookup_empty in Hk.
    + intros k. split.
      * intros Hk. split; [done|]. destruct (Hfrom k Hk) as [Hm|Hsrc]; [|done].
        rewrite lookup_empty in Hm. by destruct Hm.
      * intros (_ & pat & matches & path & Hp & Hg & Hpath & Ha).
        destruct (Hall pat matches path Hp Hg Hpath) as (k' & Ha' & Hk').
        rewrite Ha in Ha'. injection Ha' as <-. by eexists.
Qed.

End extra_watches.

Section extra_watches_use.

Import Path Rego.

(** X23.  What startup records about the extra watches is what the handler
    looks up: every recorded path matches, whatever its extension, and is
    subscribed from the start. *)
Theorem extra_paths_match F W flag w w' cfg k :
  init_extra F W flag w = Ok (w', extraPaths cfg) →
  is_Some (extraPaths cfg !! k) →
  matchFile cfg k = true ∧ k ∈ w'.
Proof.
  unfold init_extra. intros H [b Hk].
  assert (Hkeys : keys_watched W w' (extraPaths cfg)).
  { destruct (String.eqb flag "").
    { injection H as _ Hm. rewrite <- Hm in Hk. by rewrite lookup_empty in Hk. }
    apply range_patterns_spec in H as (_ & Hkeys & _).
    apply Hkeys. intros k' b' Hk'. by rewrite lookup_empty in Hk'. }
  destruct (Hkeys k b Hk) as (-> & Hin & _). split; [|done].
  unfold matchFile, extra. rewrite Hk. apply orb_true_r.
Qed.

Lemma init_extra_subscribes_witness :
  ∃ w' m,
    init_extra Sample.files Sample.world "assets/*.html,*.tmpl" {[ "/src/app" ]} = Ok (w', m)
    ∧ {[ "/src/app" ]} ⊆ w'
    ∧ keys_watched Sample.world w' m
    ∧ (∀ k, is_Some (m !! k) ↔
         "assets/*.html,*.tmpl" ≠ "" ∧ ∃ pat matches path,
           pat ∈ Split "assets/*.html,*.tmpl" ∧ glob Sample.files pat = Some matches
           ∧ path ∈ matches ∧ abs Sample.files path = Some k)
    ∧ ("assets/*.html,*.tmpl" = "" → w' = {[ "/src/app" ]} ∧ m = ∅).
Proof.
  eexists _, _. split; [vm_compute; reflexivity|].
  apply (init_extra_subscribes Sample.files Sample.world "assets/*.html,*.tmpl"
           {[ "/src/app" ]}).
  vm_compute. reflexivity.
Defined.

Lemma extra_paths_match_witness :
  matchFile Sample.cfg "/src/app/assets/page.html" = true
  ∧ "/src/app/assets/page.html"
      ∈ ({[ "/src/app/assets/page.html"; "/src/app" ]} : gset string).
Proof.
  apply (extra_paths_match Sample.files Sample.world "assets/*.html"
           {[ "/src/app" ]} _ Sample.cfg "/src/app/assets/page.html").
  - vm_compute. reflexivity.
  - vm_compute. by eexists.
Defined.

Lemma on_event_directory_witness :
  let ev := {| Name := "/src/app/assets"; EvOp := Create |} in
  "/src/app/assets/gen.go" ∈ (on_event Sample.cfg Sample.world {[ "/src/app" ]} ev).1
  ∧ SendInstall ∈ (on_event Sample.cfg Sample.world {[ "/src/app" ]} ev).2.
Proof.
  cbv zeta.
  apply (on_event_directory Sample.cfg Sample.world {[ "/src/app" ]}
           {| Name := "/src/app/assets"; EvOp := Create |}
           [("gen.go", File); ("page.html", File)]
           "/src/app/assets/gen.go" "gen.go" File).
  - discriminate.
  - discriminate.
  - reflexivity.
  - eapply (inside_entry _ _ _ ("gen.go", File)).
    + apply elem_of_cons. by left.
    + apply inside_root.
  - split; reflexivity.
  - reflexivity.
Defined.

Lemma on_event_vanished_witness :
  let ev := {| Name := "/src/app/gone.go"; EvOp := Write |} in
  (on_event Sample.cfg Sample.world {[ "/src/app" ]} ev).1 = {[ "/src/app" ]}
  ∧ SendInstall ∉ (on_event Sample.cfg Sample.world {[ "/src/app" ]} ev).2.
Proof.
  cbv zeta.
  apply (on_event_vanished Sample.cfg Sample.world {[ "/src/app" ]}
           {| Name := "/src/app/gone.go"; EvOp := Write |}).
  - discriminate.
  - reflexivity.
Defined.

(** X14.  A permission-only change is dropped by both iterations: the state of
    the program is as before and nothing is done. *)
Theorem chmod_ignored cfg W s vb name :
  step cfg W s (FsEvent {| Name := name; EvOp := Chmod |}) = (Running s, [])
  ∧ RegoV1.on_event vb W (watchset s) {| Name := name; EvOp := Chmod |}
    = (watchset s, []).
Proof.
  split.
  - unfold step, on_event. simpl. by destruct s.
  - unfold RegoV1.on_event. simpl.
    destruct (negb (String.eqb (Ext name) ".go")); [done|].
    by destruct (HasPrefix (Base name) ".").
Qed.

End extra_watches_use.
